(** * dgraph-export-tool: the export client, the cleanup sweeper and the
      two trigger paths (timer loop and HTTP handler)

    Shallow embedding of
      - [internal/dgraph/export/export.go]  (package [export]);
      - the [main] package: [exportLoop], [apiExportHandler] and
        [cleanupTmpFiles];
      - the parts of Go's [path/filepath] and [unicode/utf8] that
        [cleanupTmpFiles] calls ([filepath.Match] on a Unix build, as of
        Go 1.16, whose [matchChunk] goes on checking a chunk for its form
        after the match has failed). *)

From Stdlib Require Import String Ascii List Bool Arith NArith Lia.
Import ListNotations.
Open Scope string_scope.
Open Scope nat_scope.

(** ** Go values shared by the packages *)

Module Go.

(** A Go [error] value.  The constructors are the error values the
    embedded code creates or receives. *)
Inductive error : Type :=
| ErrBadPattern                              (* filepath.ErrBadPattern *)
| PathError (op path cause : string)         (* *fs.PathError *)
| Canceled                                   (* context.Canceled *)
| ErrorString (msg : string).                (* an error known by its
                                                message: errors.New,
                                                fmt.Errorf, and the errors
                                                of other libraries *)

(** [err.Error()] *)
Definition Error (e : error) : string :=
  match e with
  | ErrBadPattern => "syntax error in pattern"
  | PathError op path cause => op ++ " " ++ path ++ ": " ++ cause
  | Canceled => "context canceled"
  | ErrorString msg => msg
  end.

(** The double quote character and a string holding only it. *)
Definition dquote : string := String (ascii_of_nat 34) EmptyString.

(** [s[n:]] for [n <= len(s)] *)
Fixpoint drop (n : nat) (s : string) : string :=
  match n, s with
  | O, _ => s
  | S n', String _ s' => drop n' s'
  | S _, EmptyString => EmptyString
  end.

(** [s[:n]] for [n <= len(s)] *)
Fixpoint take (n : nat) (s : string) : string :=
  match n, s with
  | O, _ => EmptyString
  | S n', String c s' => String c (take n' s')
  | S _, EmptyString => EmptyString
  end.

Definition byte (c : ascii) : N := N_of_ascii c.

End Go.

(** ** [unicode/utf8]: DecodeRuneInString *)

Module utf8.

Definition RuneError : N := 65533.

(** The [first] table: information about the first byte of an encoding. *)
Definition first (b : N) : N :=
  if (b <? 128)%N then 240        (* as: ASCII *)
  else if (b <? 194)%N then 241   (* xx: invalid *)
  else if (b <? 224)%N then 2     (* s1 *)
  else if (b =? 224)%N then 19    (* s2 *)
  else if (b <? 237)%N then 3     (* s3 *)
  else if (b =? 237)%N then 35    (* s4 *)
  else if (b <? 240)%N then 3     (* s3 *)
  else if (b =? 240)%N then 52    (* s5 *)
  else if (b <? 244)%N then 4     (* s6 *)
  else if (b =? 244)%N then 68    (* s7 *)
  else 241.                       (* xx *)

(** [acceptRanges[i]]: bounds on the second byte. *)
Definition acceptRanges (i : N) : N * N :=
  match i with
  | 1%N => (160, 191)
  | 2%N => (128, 159)
  | 3%N => (144, 191)
  | 4%N => (128, 143)
  | _ => (128, 191)
  end%N.

Definition locb : N := 128.
Definition hicb : N := 191.

Definition nth_byte (s : string) (i : nat) : N :=
  match String.get i s with
  | Some c => Go.byte c
  | None => 0%N
  end.

(** [utf8.DecodeRuneInString(s)]: the rune and its width in bytes. *)
Definition DecodeRuneInString (s : string) : N * nat :=
  let n := String.length s in
  if n <? 1 then (RuneError, 0)
  else
    let s0 := nth_byte s 0 in
    let x := first s0 in
    if (240 <=? x)%N then
      (if N.testbit x 0 then RuneError else s0, 1)
    else
      let sz := N.to_nat (N.land x 7) in
      let accept := acceptRanges (N.shiftr x 4) in
      if n <? sz then (RuneError, 1)
      else
        let s1 := nth_byte s 1 in
        if ((s1 <? fst accept) || (snd accept <? s1))%N then (RuneError, 1)
        else if sz <=? 2 then
          (N.lor (N.shiftl (N.land s0 31) 6) (N.land s1 63), 2)
        else
          let s2 := nth_byte s 2 in
          if ((s2 <? locb) || (hicb <? s2))%N then (RuneError, 1)
          else if sz <=? 3 then
            (N.lor (N.lor (N.shiftl (N.land s0 15) 12)
                          (N.shiftl (N.land s1 63) 6))
                   (N.land s2 63), 3)
          else
            let s3 := nth_byte s 3 in
            if ((s3 <? locb) || (hicb <? s3))%N then (RuneError, 1)
            else
              (N.lor (N.lor (N.lor (N.shiftl (N.land s0 7) 18)
                                   (N.shiftl (N.land s1 63) 12))
                            (N.shiftl (N.land s2 63) 6))
                     (N.land s3 63), 4).

End utf8.

(** ** [path/filepath]: Match (Unix: separator [/], backslash escapes) *)

Module filepath.

Import Go.

Definition Separator : ascii := "/"%char.

(** The escape character of a pattern on Unix, byte 92. *)
Definition backslash : ascii := ascii_of_nat 92.

Definition starts (c : ascii) (s : string) : bool :=
  match s with
  | String c' _ => Ascii.eqb c' c
  | EmptyString => false
  end.

Fixpoint strip_stars (pattern : string) (star : bool) : bool * string :=
  match pattern with
  | String c rest =>
      if Ascii.eqb c "*"%char then strip_stars rest true else (star, pattern)
  | EmptyString => (star, pattern)
  end.

(** The [Scan:] loop of [scanChunk]: the index at which the chunk ends.
    [skip] is set when the previous byte was a backslash that escapes
    this one. *)
Fixpoint scan_end (pattern : string) (inrange skip : bool) (i : nat) : nat :=
  match pattern with
  | EmptyString => i
  | String c rest =>
      if skip then scan_end rest inrange false (S i)
      else if Ascii.eqb c backslash then
        match rest with
        | EmptyString => S i
        | _ => scan_end rest inrange true (S i)
        end
      else if Ascii.eqb c "["%char then scan_end rest true false (S i)
      else if Ascii.eqb c "]"%char then scan_end rest false false (S i)
      else if Ascii.eqb c "*"%char then
        if inrange then scan_end rest inrange false (S i) else i
      else scan_end rest inrange false (S i)
  end.

(** [scanChunk]: the next segment of the pattern, a non-star string
    possibly preceded by a star. *)
Definition scanChunk (pattern : string) : bool * string * string :=
  let '(star, pattern) := strip_stars pattern false in
  let i := scan_end pattern false false 0 in
  (star, take i pattern, drop i pattern).

(** [getEsc]: a possibly escaped character of a character class.  As in
    Go the rune and the rest are returned together with the error. *)
Definition getEsc (chunk : string) : N * string * option error :=
  if (String.length chunk =? 0) || starts "-"%char chunk || starts "]"%char chunk
  then (0%N, EmptyString, Some ErrBadPattern)
  else
    let esc := starts backslash chunk in
    let chunk := if esc then drop 1 chunk else chunk in
    if esc && (String.length chunk =? 0) then (0%N, EmptyString, Some ErrBadPattern)
    else
      let '(r, n) := utf8.DecodeRuneInString chunk in
      let err1 := if (r =? utf8.RuneError)%N && (n =? 1)
                  then Some ErrBadPattern else None in
      let nchunk := drop n chunk in
      let err2 := if String.length nchunk =? 0
                  then Some ErrBadPattern else err1 in
      (r, nchunk, err2).

(** The range loop of a character class in [matchChunk]: returns the
    chunk after the closing bracket and whether [r] was in a range. *)
Fixpoint ranges (fuel : nat) (chunk : string) (r : N) (matched : bool)
                (nrange : nat) : (string * bool) + error :=
  match fuel with
  | O => inr ErrBadPattern
  | S fuel' =>
      if starts "]"%char chunk && (0 <? nrange) then inl (drop 1 chunk, matched)
      else
        match getEsc chunk with
        | (_, _, Some err) => inr err
        | (lo, chunk1, None) =>
            if starts "-"%char chunk1 then
              match getEsc (drop 1 chunk1) with
              | (_, _, Some err) => inr err
              | (hi, chunk2, None) =>
                  ranges fuel' chunk2 r
                         (((lo <=? r) && (r <=? hi))%N || matched)
                         (S nrange)
              end
            else
              ranges fuel' chunk1 r
                     (((lo <=? r) && (r <=? lo))%N || matched)
                     (S nrange)
        end
  end.

(** The loop of [matchChunk]. *)
Fixpoint matchChunk_loop (fuel : nat) (chunk s : string) (failed : bool)
  : string * bool * option error :=
  match fuel with
  | O => (EmptyString, false, Some ErrBadPattern)
  | S fuel' =>
      match chunk with
      | EmptyString =>
          if failed then (EmptyString, false, None) else (s, true, None)
      | String c0 chunk' =>
          let failed := failed || (String.length s =? 0) in
          if Ascii.eqb c0 "["%char then
            let '(r, s) :=
              if failed then (0%N, s)
              else let '(r, n) := utf8.DecodeRuneInString s in (r, drop n s) in
            let negated := starts "^"%char chunk' in
            let chunk1 := if negated then drop 1 chunk' else chunk' in
            match ranges (S (String.length chunk1)) chunk1 r false 0 with
            | inr err => (EmptyString, false, Some err)
            | inl (chunk2, matched) =>
                matchChunk_loop fuel' chunk2 s
                                (failed || Bool.eqb matched negated)
            end
          else if Ascii.eqb c0 "?"%char then
            if failed then matchChunk_loop fuel' chunk' s failed
            else
              let failed := starts Separator s in
              let '(_, n) := utf8.DecodeRuneInString s in
              matchChunk_loop fuel' chunk' (drop n s) failed
          else
            let lit (chunk : string) :=
              match chunk with
              | EmptyString => (EmptyString, false, Some ErrBadPattern)
              | String c chunk'' =>
                  if failed then matchChunk_loop fuel' chunk'' s failed
                  else matchChunk_loop fuel' chunk'' (drop 1 s)
                                       (negb (starts c s))
              end in
            if Ascii.eqb c0 backslash then lit chunk' else lit chunk
      end
  end.

(** [matchChunk]: whether the chunk matches the beginning of [s]; if so
    the remainder of [s]. *)
Definition matchChunk (chunk s : string) : string * bool * option error :=
  matchChunk_loop (S (String.length chunk)) chunk s false.

(** Outcome of the inner loop of [Match]. *)
Inductive skipped : Type :=
| Found (t : string)          (* continue Pattern with name = t *)
| Bad (err : error)           (* return false, err *)
| Exhausted.                  (* the loop ended *)

(** The inner loop of [Match] for a chunk preceded by a star: try the
    chunk after skipping [i+1] bytes of [name], never skipping a
    separator.  [lastChunk] is [len(pattern) == 0]. *)
Fixpoint star_loop (chunk name : string) (lastChunk : bool) : skipped :=
  match name with
  | EmptyString => Exhausted
  | String c rest =>
      if Ascii.eqb c Separator then Exhausted
      else
        match matchChunk chunk rest with
        | (t, true, _) =>
            if lastChunk && (0 <? String.length t)
            then star_loop chunk rest lastChunk
            else Found t
        | (_, false, Some err) => Bad err
        | (_, false, None) => star_loop chunk rest lastChunk
        end
  end.

Fixpoint contains_sep (name : string) : bool :=
  match name with
  | EmptyString => false
  | String c rest => Ascii.eqb c Separator || contains_sep rest
  end.

(** The [Pattern:] loop of [Match]. *)
Fixpoint Match_loop (fuel : nat) (pattern name : string)
  : bool * option error :=
  match fuel with
  | O => (false, Some ErrBadPattern)
  | S fuel' =>
      if String.length pattern =? 0 then (String.length name =? 0, None)
      else
        let '(star, chunk, pattern) := scanChunk pattern in
        if star && (String.length chunk =? 0)
        then (negb (contains_sep name), None)
        else
          let last := String.length pattern =? 0 in
          match matchChunk chunk name with
          | (t, ok, err) =>
              if ok && ((String.length t =? 0) || negb last)
              then Match_loop fuel' pattern t
              else
                match err with
                | Some e => (false, Some e)
                | None =>
                    if star then
                      match star_loop chunk name last with
                      | Found t => Match_loop fuel' pattern t
                      | Bad e => (false, Some e)
                      | Exhausted => (false, None)
                      end
                    else (false, None)
                end
          end
  end.

(** [filepath.Match(pattern, name)] *)
Definition Match (pattern name : string) : bool * option error :=
  Match_loop (S (String.length pattern)) pattern name.

End filepath.

(** ** Package [export]: the client of the remote export mutation *)

Module export.

Import Go.

(** [context.Context], as far as the program distinguishes contexts:
    the background context, and contexts derived with
    [context.WithCancel]. *)
Inductive Context : Type :=
| Background
| WithCancel (parent : Context) (id : nat).

Record ExportInput : Type := {
  Format : string;
  Destination : string;
  AccessKey : string;
  SecretKey : string;
  SessionToken : string;
  Anonymous : bool;
  Namespace : N
}.

Record Response : Type := {
  Message : string;
  Code : string
}.

Record ExportOutput : Type := {
  Resp : Response;                 (* field [Response] *)
  ExportedFiles : list string
}.

(** The zero value of [ExportOutput], the initial value of [mutation]. *)
Definition zero : ExportOutput :=
  {| Resp := {| Message := EmptyString; Code := EmptyString |}; ExportedFiles := [] |}.

Record Client : Type := {
  cli : string;                    (* the graphql client, by its endpoint *)
  input : ExportInput              (* field [in] *)
}.

Definition Option : Type := Client -> Client.

Definition set_input (c : Client) (i : ExportInput) : Client :=
  {| cli := cli c; input := i |}.

Definition WithAccessKey (value : string) : Option := fun c =>
  set_input c
    {| Format := Format (input c); Destination := Destination (input c);
       AccessKey := value; SecretKey := SecretKey (input c);
       SessionToken := SessionToken (input c);
       Anonymous := Anonymous (input c); Namespace := Namespace (input c) |}.

Definition WithSecretKey (value : string) : Option := fun c =>
  set_input c
    {| Format := Format (input c); Destination := Destination (input c);
       AccessKey := AccessKey (input c); SecretKey := value;
       SessionToken := SessionToken (input c);
       Anonymous := Anonymous (input c); Namespace := Namespace (input c) |}.

Definition WithAnonymous (value : bool) : Option := fun c =>
  set_input c
    {| Format := Format (input c); Destination := Destination (input c);
       AccessKey := AccessKey (input c); SecretKey := SecretKey (input c);
       SessionToken := SessionToken (input c);
       Anonymous := value; Namespace := Namespace (input c) |}.

(** [NewClient].  [url_Parse] is [net/url.Parse], reduced to the error
    it returns.  The Go result, a client pointer and an error of
    which exactly one is non-nil, is a sum here. *)
Definition NewClient (url_Parse : string -> option error)
           (endpoint dest : string) (opts : list Option)
  : Client + error :=
  match url_Parse endpoint with
  | Some err => inr err
  | None =>
      let c := {| cli := endpoint;
                  input := {| Format := "rdf"; Destination := dest;
                              AccessKey := EmptyString; SecretKey := EmptyString;
                              SessionToken := EmptyString; Anonymous := false;
                              Namespace := 0%N |} |} in
      inl (fold_left (fun c opt => opt c) opts c)
  end.

(** One call of the graphql client's [Mutate]: the client's endpoint, the
    context the call runs under, and the [input] variable. *)
Record Call : Type := {
  call_cli : string;
  call_ctx : Context;
  call_vars : ExportInput
}.

(** What [Mutate] leaves behind: the filled [mutation] and its error. *)
Definition Reply : Type := (ExportOutput * option error)%type.

(** [Export], up to the call of [c.cli.Mutate]: the call it issues. *)
Definition Export_call (c : Client) (ctx : Context) : Call :=
  {| call_cli := cli c; call_ctx := Background; call_vars := input c |}.

(** [Export], from the return of [c.cli.Mutate] on.  The Go result, an
    output pointer and an error, is a sum: [inl out] is the pair of
    [&out] and [nil], and [inr err] is the pair of [nil] and [err]. *)
Definition Export_return (reply : Reply) : ExportOutput + error :=
  let '(mutation, err) := reply in
  match err with
  | Some e => inr e
  | None =>
      let resp := Resp mutation in
      if negb (String.eqb (Code resp) "Success") then
        inr (ErrorString
               ("export finished with unseccessfull code " ++ dquote
                ++ Code resp ++ dquote ++ ": " ++ Message resp))
      else inl mutation
  end.

(** The method [Export(ctx)] of [Client], with the graphql client's [Mutate] as
    [mutate]. *)
Definition Export (mutate : Call -> Reply) (c : Client) (ctx : Context)
  : ExportOutput + error :=
  Export_return (mutate (Export_call c ctx)).

(** The method [GetFiles()] of [ExportOutput] *)
Definition GetFiles (resp : ExportOutput) : list string :=
  fold_left (fun files file => (files ++ [file])%list) (ExportedFiles resp) [].

(** A transport that honours the context of a call the way [net/http]
    does: under a cancelled context the call fails with the context's
    error, otherwise the remote end answers.  [cancelled] lists the
    identifiers of the cancelled contexts. *)
Fixpoint done (cancelled : list nat) (ctx : Context) : bool :=
  match ctx with
  | Background => false
  | WithCancel parent id =>
      existsb (Nat.eqb id) cancelled || done cancelled parent
  end.

Definition honouring (cancelled : list nat) (remote : ExportInput -> Reply)
  : Call -> Reply :=
  fun call =>
    if done cancelled (call_ctx call) then (zero, Some Canceled)
    else remote (call_vars call).

End export.

(** ** Package [main]: parameters, the world the process acts on *)

Module main.

Import Go export.

Record dgraphTmp : Type := {
  prefix : string;
  pattern : string;
  cleanup : bool
}.

Record dgraphParams : Type := {
  endpoint : string;
  dest : string;
  accessKey : string;
  secretKey : string;
  period : N;
  tmp : dgraphTmp                  (* the embedded [dgraphTmp] *)
}.

(** *** The file system under the temporary-directory prefix *)

#[local] Set Warnings "-register-all".

Inductive Node : Type :=
| File
| Dir (children : list (string * Node)).

Definition isDir (n : Node) : bool :=
  match n with
  | File => false
  | Dir _ => true
  end.

(** [fs.DirEntry]: what [os.ReadDir] reports of a child. *)
Record DirEntry : Type := {
  Name : string;
  IsDir : bool
}.

Definition entry (child : string * Node) : DirEntry :=
  {| Name := fst child; IsDir := isDir (snd child) |}.

(** The result of [filepath.Join(prefix, name)] for a name reported by
    [os.ReadDir(prefix)].  Its cleaned spelling is not computed: the
    path is kept as the pair it names, the child [base] of the
    directory [dir]. *)
Record path : Type := {
  dir : string;
  base : string
}.

Definition Join (elem1 elem2 : string) : path :=
  {| dir := elem1; base := elem2 |}.

(** The directory the program reads and writes, the one named by
    [-dgraph.export-tmp-prefix]: its children in the order [os.ReadDir]
    lists them, the error of listing it, if any, and the error of
    removing a child, if any. *)
Record FS : Type := {
  readErr : option error;
  root : list (string * Node);
  removeErr : string -> option error
}.

Definition set_root (f : FS) (r : list (string * Node)) : FS :=
  {| readErr := readErr f; root := r; removeErr := removeErr f |}.

(** *** Effects *)

(** Which goroutine acts: the timer loop or the handler of a request. *)
Inductive Origin : Type :=
| Timer
| OnDemand (id : nat).

Inductive Log : Type :=
| LogV3 (msg : string)             (* klog.V(3).Info *)
| LogInfo (msg : string)           (* klog.Info *)
| LogFiles (files : list string)   (* klog.Infof "exported files: %v" *)
| LogRemoving (p : path)           (* klog.Infof "removing directory: %s" *)
| LogError (err : error)           (* klog.Error *)
| LogFatal (err : error).          (* klog.Fatal *)

Inductive Effect : Type :=
| Klog (l : Log)
| OsReadDir (name : string)
| OsRemoveAll (p : path)
| Mutate (who : Origin) (call : Call)      (* the remote call is issued *)
| MutateDone (who : Origin)                (* the remote call returned *)
| HttpWrite (id : nat) (status : nat) (body : string).

Record World : Type := {
  fs : FS;
  trace : list Effect              (* oldest first *)
}.

(** State passing over the world. *)
Definition M (A : Type) : Type := World -> A * World.

Definition ret {A : Type} (a : A) : M A := fun w => (a, w).

Definition bind {A B : Type} (m : M A) (k : A -> M B) : M B :=
  fun w => let '(a, w') := m w in k a w'.

Notation "x <- m ;; k" := (bind m (fun x => k))
  (at level 61, m at next level, right associativity).
Notation "m ;;; k" := (bind m (fun _ => k))
  (at level 61, right associativity).

(** The world after the effects [l], the directory untouched. *)
Definition logged (w : World) (l : list Effect) : World :=
  {| fs := fs w; trace := (trace w ++ l)%list |}.

Definition emit (e : Effect) : M unit :=
  fun w => (tt, {| fs := fs w; trace := (trace w ++ [e])%list |}).

(** [os.ReadDir(name)] *)
Definition ReadDir (name : string) : M (list DirEntry * option error) :=
  emit (OsReadDir name) ;;;
  fun w =>
    match readErr (fs w) with
    | Some err => (([], Some err), w)
    | None => ((map entry (root (fs w)), None), w)
    end.

(** [os.RemoveAll(path)]: the child and all it contains are gone, or
    the error of the removal is returned. *)
Definition RemoveAll (p : path) : M (option error) :=
  emit (OsRemoveAll p) ;;;
  fun w =>
    match removeErr (fs w) (base p) with
    | Some err => (Some err, w)
    | None =>
        (None,
         {| fs := set_root (fs w)
                    (filter (fun child => negb (String.eqb (fst child) (base p)))
                            (root (fs w)));
            trace := trace w |})
    end.

Definition newline : string := String (ascii_of_nat 10) EmptyString.

(** *** [cleanupTmpFiles] *)

(** The [for _, entry := range entries] loop. *)
Fixpoint sweep (prefix pattern : string) (entries : list DirEntry)
  : M (option error) :=
  match entries with
  | [] => ret None
  | entry :: rest =>
      match filepath.Match pattern (Name entry) with
      | (_, Some err) => ret (Some err)
      | (matched, None) =>
          if IsDir entry && matched then
            let path := Join prefix (Name entry) in
            emit (Klog (LogRemoving path)) ;;;
            err <- RemoveAll path ;;
            match err with
            | Some e => ret (Some e)
            | None => sweep prefix pattern rest
            end
          else sweep prefix pattern rest
      end
  end.

Definition cleanupTmpFiles (ctx : Context) (prefix pattern : string)
  : M (option error) :=
  r <- ReadDir prefix ;;
  match r with
  | (_, Some err) => ret (Some err)
  | (entries, None) => sweep prefix pattern entries
  end.

(** *** The two trigger paths *)

Section Triggers.

(** [net/url.Parse] and [encoding/json.Marshal], by their results. *)
Variable url_Parse : string -> option error.
Variable json_Marshal : ExportOutput -> string + error.

Variable p : dgraphParams.

Definition newClient : Client + error :=
  NewClient url_Parse (endpoint p) (dest p)
            [WithAccessKey (accessKey p); WithSecretKey (secretKey p)].

(** [if p.dgraphTmp.cleanup { ... }], as both paths have it. *)
Definition cleanupIfEnabled (ctx : Context) : M unit :=
  if cleanup (tmp p) then
    err <- cleanupTmpFiles ctx (prefix (tmp p)) (pattern (tmp p)) ;;
    match err with
    | Some e => emit (Klog (LogError e))
    | None => ret tt
    end
  else ret tt.

(** [c.Export(ctx)] seen from the caller [who]: the call goes out,
    [mutate] answers, [Export] returns. *)
Definition callExport (mutate : Call -> Reply) (who : Origin)
           (c : Client) (ctx : Context) : M (ExportOutput + error) :=
  emit (Mutate who (Export_call c ctx)) ;;;
  emit (MutateDone who) ;;;
  ret (Export_return (mutate (Export_call c ctx))).

(** [exportLoop] before its [for]: [None] when [klog.Fatal] ends the
    process. *)
Definition exportLoop_enter : M (option Client) :=
  emit (Klog (LogV3 "started export loop")) ;;;
  match newClient with
  | inr err => emit (Klog (LogFatal err)) ;;; ret None
  | inl c => ret (Some c)
  end.

(** [case <-ticker.C:] up to the call of [c.Export]. *)
Definition exportLoop_tick : M unit :=
  emit (Klog (LogInfo "make export export request")).

(** [case <-ticker.C:] from the return of [c.Export] on. *)
Definition exportLoop_resume (ctx : Context) (res : ExportOutput + error)
  : M unit :=
  match res with
  | inr err => emit (Klog (LogError err))          (* continue *)
  | inl resp =>
      emit (Klog (LogFiles (GetFiles resp))) ;;;
      cleanupIfEnabled ctx
  end.

(** One whole iteration of the loop for a tick. *)
Definition exportLoop_iteration (mutate : Call -> Reply) (c : Client)
           (ctx : Context) : M unit :=
  exportLoop_tick ;;;
  res <- callExport mutate Timer c ctx ;;
  exportLoop_resume ctx res.

(** The handler of [/api/v1/export] up to the call of [c.Export]:
    [Some c] when it goes on to call [c.Export], [None] when it has
    returned. *)
Definition apiExportHandler_enter (ctx : Context) (id : nat)
           (method : string) : M (option Client) :=
  if String.eqb method "POST" then
    match newClient with
    | inr err => emit (HttpWrite id 200 (Error err ++ newline)) ;;; ret None
    | inl c => ret (Some c)
    end
  else
    emit (HttpWrite id 405 ("Method not allowed" ++ newline)) ;;;
    cleanupIfEnabled ctx ;;;
    ret None.

(** The handler from the return of [c.Export] on. *)
Definition apiExportHandler_resume (ctx : Context) (id : nat)
           (res : ExportOutput + error) : M unit :=
  match res with
  | inr err => emit (HttpWrite id 200 (Error err ++ newline))
  | inl resp =>
      match json_Marshal resp with
      | inr err => emit (HttpWrite id 200 (Error err ++ newline))
      | inl b =>
          emit (HttpWrite id 200 (b ++ newline)) ;;;
          cleanupIfEnabled ctx
      end
  end.

(** The handler returned by [apiExportHandler(ctx)], serving request
    [id]. *)
Definition apiExportHandler (mutate : Call -> Reply) (ctx : Context)
           (id : nat) (method : string) : M unit :=
  c <- apiExportHandler_enter ctx id method ;;
  match c with
  | None => ret tt
  | Some c =>
      res <- callExport mutate (OnDemand id) c ctx ;;
      apiExportHandler_resume ctx id res
  end.

End Triggers.

(** *** The process: the timer goroutine and the handler goroutines

    [main] starts the HTTP server and runs the leader election; the
    election runs [OnStartedLeading], hence [exportLoop], in a goroutine
    of its own once the lease is held, and [net/http] serves every
    request in a goroutine of its own.  A goroutine is followed from one
    blocking point to the next: the loop blocks in its [select] and in
    [c.Export], a handler blocks in [c.Export].  A sweep is taken as one
    step.  The [/health] handler has an empty body and is left out. *)

(** The context of [main], handed to [apiExportHandler], and the context
    the election derives from it for [OnStartedLeading]. *)
Definition mainCtx : Context := WithCancel Background 0.
Definition leaderCtx : Context := WithCancel mainCtx 1.

(** Where the goroutine of [exportLoop] stands. *)
Inductive LoopPc : Type :=
| NotStarted                       (* [OnStartedLeading] has not run *)
| AtSelect (c : Client)            (* blocked in [select] *)
| InExport (c : Client)            (* blocked in [c.Export] *)
| Returned.                        (* left by [case <-ctx.Done()] *)

Record Proc : Type := {
  alive : bool;                    (* the process has not exited *)
  loop : LoopPc;
  leaderDone : bool;               (* [leaderCtx] is cancelled *)
  tickC : bool;                    (* [ticker.C], of capacity 1, is full *)
  nextReq : nat;                   (* requests served so far *)
  inflight : list (nat * Client);  (* handlers blocked in [c.Export] *)
  world : World
}.

Inductive SelectCase : Type :=
| CaseTick                         (* [case <-ticker.C:] *)
| CaseDone.                        (* [case <-ctx.Done():] *)

Inductive Event : Type :=
| StartedLeading                   (* the election runs [OnStartedLeading] *)
| StoppedLeading                   (* the election ends: [leaderCtx] is
                                      cancelled, [OnStoppedLeading] runs *)
| NewLeader (identity : string)    (* the election runs [OnNewLeader] *)
| PeriodElapsed                    (* [p.period] has passed once more *)
| Select (k : SelectCase)          (* the loop's [select] proceeds with [k] *)
| Request (method : string)        (* a request for [/api/v1/export] *)
| Returns (who : Origin) (reply : Reply)   (* [Mutate] returns to [who] *)
| Exit.                            (* [le.Run] is over and [main] returns *)

Definition init (f : FS) : Proc :=
  {| alive := true; loop := NotStarted; leaderDone := false; tickC := false;
     nextReq := 0; inflight := []; world := {| fs := f; trace := [] |} |}.

Definition lookup (id : nat) (l : list (nat * Client)) : option Client :=
  match find (fun h => Nat.eqb (fst h) id) l with
  | Some h => Some (snd h)
  | None => None
  end.

Definition without (id : nat) (l : list (nat * Client))
  : list (nat * Client) :=
  filter (fun h => negb (Nat.eqb (fst h) id)) l.

Section Process.

Variable url_Parse : string -> option error.
Variable json_Marshal : ExportOutput -> string + error.
Variable p : dgraphParams.

Definition step (s : Proc) (e : Event) : option Proc :=
  if negb (alive s) then None
  else
    match e with
    | StartedLeading =>
        match loop s with
        | NotStarted =>
            if leaderDone s then None
            else
              let '(c, w) := exportLoop_enter url_Parse p (world s) in
              match c with
              | None =>
                  Some {| alive := false; loop := NotStarted;
                          leaderDone := leaderDone s; tickC := tickC s;
                          nextReq := nextReq s; inflight := inflight s;
                          world := w |}
              | Some c =>
                  Some {| alive := true; loop := AtSelect c;
                          leaderDone := leaderDone s; tickC := false;
                          nextReq := nextReq s; inflight := inflight s;
                          world := w |}
              end
        | _ => None
        end
    | StoppedLeading =>
        if leaderDone s then None
        else
          Some {| alive := true; loop := loop s; leaderDone := true;
                  tickC := tickC s; nextReq := nextReq s;
                  inflight := inflight s;
                  world := snd (emit (Klog (LogV3 "stopped leading"))
                                     (world s)) |}
    | NewLeader identity =>
        Some {| alive := true; loop := loop s; leaderDone := leaderDone s;
                tickC := tickC s; nextReq := nextReq s;
                inflight := inflight s;
                world := snd (emit (Klog (LogInfo
                                            (identity ++ " is leader now")))
                                   (world s)) |}
    | PeriodElapsed =>
        match loop s with
        | NotStarted => Some s               (* no ticker exists *)
        | _ =>
            Some {| alive := true; loop := loop s;
                    leaderDone := leaderDone s; tickC := true;
                    nextReq := nextReq s; inflight := inflight s;
                    world := world s |}
        end
    | Select CaseTick =>
        match loop s with
        | AtSelect c =>
            if tickC s then
              Some {| alive := true; loop := InExport c;
                      leaderDone := leaderDone s; tickC := false;
                      nextReq := nextReq s; inflight := inflight s;
                      world :=
                        snd ((exportLoop_tick ;;;
                              emit (Mutate Timer (Export_call c leaderCtx)))
                               (world s)) |}
            else None
        | _ => None
        end
    | Select CaseDone =>
        match loop s with
        | AtSelect c =>
            if leaderDone s then
              Some {| alive := true; loop := Returned;
                      leaderDone := leaderDone s; tickC := tickC s;
                      nextReq := nextReq s; inflight := inflight s;
                      world := world s |}
            else None
        | _ => None
        end
    | Returns Timer reply =>
        match loop s with
        | InExport c =>
            Some {| alive := true; loop := AtSelect c;
                    leaderDone := leaderDone s; tickC := tickC s;
                    nextReq := nextReq s; inflight := inflight s;
                    world :=
                      snd ((emit (MutateDone Timer) ;;;
                            exportLoop_resume p leaderCtx
                                              (Export_return reply))
                             (world s)) |}
        | _ => None
        end
    | Request method =>
        let id := nextReq s in
        let '(c, w) :=
          apiExportHandler_enter url_Parse p mainCtx id method (world s) in
        match c with
        | None =>
            Some {| alive := true; loop := loop s;
                    leaderDone := leaderDone s; tickC := tickC s;
                    nextReq := S id; inflight := inflight s; world := w |}
        | Some c =>
            Some {| alive := true; loop := loop s;
                    leaderDone := leaderDone s; tickC := tickC s;
                    nextReq := S id;
                    inflight := (inflight s ++ [(id, c)])%list;
                    world :=
                      snd (emit (Mutate (OnDemand id)
                                        (Export_call c mainCtx)) w) |}
        end
    | Returns (OnDemand id) reply =>
        match lookup id (inflight s) with
        | Some c =>
            Some {| alive := true; loop := loop s;
                    leaderDone := leaderDone s; tickC := tickC s;
                    nextReq := nextReq s;
                    inflight := without id (inflight s);
                    world :=
                      snd ((emit (MutateDone (OnDemand id)) ;;;
                            apiExportHandler_resume json_Marshal p mainCtx
                                                    id (Export_return reply))
                             (world s)) |}
        | None => None
        end
    | Exit =>
        if leaderDone s then
          Some {| alive := false; loop := loop s;
                  leaderDone := leaderDone s; tickC := tickC s;
                  nextReq := nextReq s; inflight := inflight s;
                  world := world s |}
        else None
    end.

(** The process after a sequence of events; [None] when one of them
    cannot happen in the state it meets. *)
Fixpoint run (s : Proc) (evs : list Event) : option Proc :=
  match evs with
  | [] => Some s
  | e :: evs' =>
      match step s e with
      | Some s' => run s' evs'
      | None => None
      end
  end.

End Process.

(** *** What a trace shows *)

Definition isTimer (who : Origin) : bool :=
  match who with
  | Timer => true
  | OnDemand _ => false
  end.

Definition isOnDemand (who : Origin) : bool := negb (isTimer who).

Definition anyone (who : Origin) : bool := true.

(** Remote calls issued by the goroutines selected by [f]. *)
Definition issued (f : Origin -> bool) (tr : list Effect) : nat :=
  length (filter (fun e => match e with
                           | Mutate who _ => f who
                           | _ => false
                           end) tr).

(** Remote calls that have returned to the goroutines selected by [f]. *)
Definition returned (f : Origin -> bool) (tr : list Effect) : nat :=
  length (filter (fun e => match e with
                           | MutateDone who => f who
                           | _ => false
                           end) tr).

(** Remote calls in flight: issued and not yet returned. *)
Definition active (f : Origin -> bool) (tr : list Effect) : nat :=
  issued f tr - returned f tr.

(** Sweeps begun: every [cleanupTmpFiles] starts with [os.ReadDir]. *)
Definition sweeps (tr : list Effect) : nat :=
  length (filter (fun e => match e with
                           | OsReadDir _ => true
                           | _ => false
                           end) tr).

(** The paths handed to [os.RemoveAll], in order. *)
Fixpoint removals (tr : list Effect) : list path :=
  match tr with
  | [] => []
  | OsRemoveAll q :: tr' => q :: removals tr'
  | _ :: tr' => removals tr'
  end.

(** The responses written so far to request [id]. *)
Fixpoint responses (id : nat) (tr : list Effect) : list (nat * string) :=
  match tr with
  | [] => []
  | HttpWrite id' status body :: tr' =>
      if Nat.eqb id' id then (status, body) :: responses id tr'
      else responses id tr'
  | _ :: tr' => responses id tr'
  end.

(** The process holds the lease and has not been told otherwise: the
    loop started by [OnStartedLeading] exists and its context is live. *)
Definition leading (s : Proc) : bool :=
  match loop s with
  | NotStarted => false
  | _ => negb (leaderDone s)
  end.

End main.

(** ** Vocabulary of the statements, and concrete inputs *)

Module Terms.

Import Go export main.

(** The message of the error [Export] builds for a code other than
    [Success]. *)
Definition rejected (resp : Response) : string :=
  "export finished with unseccessfull code " ++ dquote
    ++ Code resp ++ dquote ++ ": " ++ Message resp.

(** The sweep calls [os.RemoveAll] for this entry: it is a directory and
    its name matches the pattern. *)
Definition wanted (pattern : string) (e : DirEntry) : bool :=
  match filepath.Match pattern (Name e) with
  | (matched, None) => IsDir e && matched
  | (_, Some _) => false
  end.

(** The error the sweep meets at this entry, if any: that of the match,
    or that of the removal of a wanted entry. *)
Definition failure (pattern : string) (f : FS) (e : DirEntry)
  : option error :=
  match filepath.Match pattern (Name e) with
  | (_, Some err) => Some err
  | (matched, None) =>
      if IsDir e && matched then removeErr f (Name e) else None
  end.

(** The effects of the loop of a sweep. *)
Definition removing (e : Effect) : Prop :=
  match e with
  | Klog (LogRemoving _) | OsRemoveAll _ => True
  | _ => False
  end.

(** Effects that are neither a listing, nor a remote call, nor a
    response. *)
Definition quiet (e : Effect) : Prop :=
  match e with
  | Klog _ | OsRemoveAll _ => True
  | _ => False
  end.

(** Calls of the timer goroutine in flight, by where it stands. *)
Definition busy (l : LoopPc) : nat :=
  match l with
  | InExport _ => 1
  | _ => 0
  end.

(** The trace and the goroutines agree: the timer goroutine has a call in
    flight exactly when it stands in [c.Export], every handler blocked in
    [c.Export] has one, and handlers are told apart by their request. *)
Definition consistent (s : Proc) : Prop :=
  issued isTimer (trace (world s))
  = returned isTimer (trace (world s)) + busy (loop s)
  /\ issued isOnDemand (trace (world s))
     = returned isOnDemand (trace (world s)) + length (inflight s)
  /\ NoDup (map fst (inflight s))
  /\ Forall (fun h => fst h < nextReq s) (inflight s).

(** A computation that adds no remote call, issued or returned, to the
    trace. *)
Definition silent {A : Type} (m : M A) : Prop :=
  forall w, exists tr,
    trace (snd (m w)) = (trace w ++ tr)%list
    /\ (forall f, issued f tr = 0)
    /\ (forall f, returned f tr = 0).

Ltac steps :=
  unfold exportLoop_iteration, exportLoop_tick, exportLoop_resume,
    apiExportHandler, apiExportHandler_enter, apiExportHandler_resume,
    callExport, bind, emit, ret, logged; cbn [fst snd fs trace].

End Terms.

Module Scenario.

Import Go export main.

(** The default of [-dgraph.export-tmp-pattern]. *)
Definition dgraphExportTmpPattern : string := "export[0-9]+".

(** The flags at their defaults, with a destination, credentials and the
    cleanup switched on. *)
Definition params0 : dgraphParams :=
  {| endpoint := "http://localhost:8080/admin";
     dest := "s3://bucket/backup";
     accessKey := "key"; secretKey := "secret";
     period := 3600000000000%N;
     tmp := {| prefix := "/tmp"; pattern := dgraphExportTmpPattern;
               cleanup := true |} |}.

(** An environment in which [url.Parse] accepts the endpoint. *)
Definition url_ok (rawURL : string) : option error := None.

(** The error of [url.Parse] for the endpoint [:foo], by its message. *)
Definition missing_scheme : error :=
  ErrorString ("parse " ++ dquote ++ ":foo" ++ dquote
               ++ ": missing protocol scheme").

(** An environment in which [url.Parse] rejects the endpoint [:foo]. *)
Definition url_bad (rawURL : string) : option error :=
  if String.eqb rawURL ":foo" then Some missing_scheme else None.

(** The parameters [params0] with the endpoint [:foo], which has no
    scheme. *)
Definition params_bad : dgraphParams :=
  {| endpoint := ":foo";
     dest := "s3://bucket/backup";
     accessKey := "key"; secretKey := "secret";
     period := 3600000000000%N;
     tmp := {| prefix := "/tmp"; pattern := dgraphExportTmpPattern;
               cleanup := true |} |}.

(** A rendering of the output that stands for [json.Marshal]: the
    response code and message and the files, unescaped. *)
Definition marshal0 (out : ExportOutput) : string + error :=
  inl ("{Response:{Message:" ++ Message (Resp out) ++ ",Code:"
         ++ Code (Resp out) ++ "},ExportedFiles:["
         ++ String.concat "," (ExportedFiles out) ++ "]}").

(** The client [newClient] builds from [params0]. *)
Definition client0 : Client :=
  {| cli := "http://localhost:8080/admin";
     input := {| Format := "rdf"; Destination := "s3://bucket/backup";
                 AccessKey := "key"; SecretKey := "secret";
                 SessionToken := EmptyString; Anonymous := false;
                 Namespace := 0%N |} |}.

(** Two answers of the remote end. *)
Definition exported : ExportOutput :=
  {| Resp := {| Message := "Export completed."; Code := "Success" |};
     ExportedFiles := ["f1.rdf"; "f2.rdf"] |}.

Definition refused : ExportOutput :=
  {| Resp := {| Message := "export already in progress"; Code := "Error" |};
     ExportedFiles := [] |}.

(** A root that holds the directories [export123] and [keep], whose
    listing and removals do not fail. *)
Definition scenario5 : World :=
  {| fs := {| readErr := None;
              root := [("export123", Dir [("g01.rdf.gz", File)]);
                       ("keep", Dir [])];
              removeErr := fun _ => None |};
     trace := [] |}.

(** A root with names the default pattern does match, one of which
    cannot be removed. *)
Definition locked : FS :=
  {| readErr := None;
     root := [("export1+", Dir [("g01.rdf.gz", File)]);
              ("export2+", Dir []);
              ("export3+", File);
              ("export4+", Dir []);
              ("keep", Dir [("export5+", Dir [])])];
     removeErr := fun name =>
                    if String.eqb name "export2+"
                    then Some (PathError "unlinkat" "/tmp/export2+"
                                         "permission denied")
                    else None |}.

(** The process in which the timer's export is in flight: it led, a
    period elapsed and the loop took the tick. *)
Definition exporting : Proc :=
  {| alive := true; loop := InExport client0; leaderDone := false;
     tickC := false; nextReq := 0; inflight := [];
     world := logged scenario5
                     [Klog (LogV3 "started export loop");
                      Klog (LogInfo "make export export request");
                      Mutate Timer (Export_call client0 leaderCtx)] |}.

End Scenario.

Module MoreTerms.

Import Go export main Scenario.

(** An option one of the three constructors of the package builds. *)
Definition known (o : Option) : Prop :=
  (exists value, o = WithAccessKey value)
  \/ (exists value, o = WithSecretKey value)
  \/ (exists value, o = WithAnonymous value).

(** The input of the mutation as the parameters of the process fix it. *)
Definition configured (p : dgraphParams) : ExportInput :=
  {| Format := "rdf"; Destination := dest p;
     AccessKey := accessKey p; SecretKey := secretKey p;
     SessionToken := EmptyString; Anonymous := false; Namespace := 0%N |}.

(** The remote calls of a trace, in order. *)
Fixpoint calls (tr : list Effect) : list Call :=
  match tr with
  | [] => []
  | Mutate _ call :: tr' => call :: calls tr'
  | _ :: tr' => calls tr'
  end.

(** The paths a trace announces with "removing directory", in order. *)
Fixpoint announced (tr : list Effect) : list path :=
  match tr with
  | [] => []
  | Klog (LogRemoving q) :: tr' => q :: announced tr'
  | _ :: tr' => announced tr'
  end.

(** A byte that [Match] gives a meaning of its own outside a class. *)
Definition special (c : ascii) : bool :=
  Ascii.eqb c "*"%char || Ascii.eqb c "?"%char || Ascii.eqb c "["%char
  || Ascii.eqb c filepath.backslash.

(** A pattern without special bytes. *)
Fixpoint literal (pattern : string) : bool :=
  match pattern with
  | EmptyString => true
  | String c rest => negb (special c) && literal rest
  end.

(** [name] after its prefix [pre], when it has that prefix. *)
Fixpoint strip_prefix (pre name : string) : option string :=
  match pre, name with
  | EmptyString, _ => Some name
  | String c pre', String d name' =>
      if Ascii.eqb d c then strip_prefix pre' name' else None
  | String _ _, EmptyString => None
  end.

(** The handlers in flight, by request. *)
Definition waiting (id : nat) (s : Proc) : bool :=
  existsb (Nat.eqb id) (map fst (inflight s)).

(** An effect the goroutines produce outside of a sweep. *)
Definition plain (e : Effect) : Prop :=
  match e with
  | OsReadDir _ | OsRemoveAll _ | Klog (LogRemoving _) => False
  | _ => True
  end.

(** A computation that keeps a property of the world. *)
Definition keeps {A : Type} (Q : World -> Prop) (m : M A) : Prop :=
  forall w, Q w -> Q (snd (m w)).


(** The parameters [params0] with the cleanup switched off, the default
    of the flag. *)
Definition params_off : dgraphParams :=
  {| endpoint := endpoint params0; dest := dest params0;
     accessKey := accessKey params0; secretKey := secretKey params0;
     period := period params0;
     tmp := {| prefix := "/tmp"; pattern := "export*"; cleanup := false |} |}.


(** The clients the goroutines hold are the configured one, and so are
    the calls of the trace. *)
Definition as_configured (url_Parse : string -> option error)
           (p : dgraphParams) (s : Proc) : Prop :=
  (forall c, loop s = AtSelect c \/ loop s = InExport c ->
             newClient url_Parse p = inl c)
  /\ Forall (fun h => newClient url_Parse p = inl (snd h)) (inflight s)
  /\ Forall (fun call => call_cli call = endpoint p
                         /\ call_vars call = configured p)
            (calls (trace (world s))).

(** The process has built no client: the loop has not started and no
    handler waits, and the trace has no remote call. *)
Definition clientless (s : Proc) : Prop :=
  loop s = NotStarted /\ inflight s = []
  /\ issued anyone (trace (world s)) = 0.

(** Every request served so far has one response, unless its handler still
    waits for its export, and then it has none. *)
Definition answered (s : Proc) : Prop :=
  Forall (fun h => fst h < nextReq s) (inflight s)
  /\ forall id,
      length (responses id (trace (world s)))
      = if waiting id s then 0 else if id <? nextReq s then 1 else 0.

(** A computation that writes the responses [X j] to the request [j],
    whatever the world. *)
Definition says {A : Type} (X : nat -> list (nat * string)) (m : M A)
  : Prop :=
  forall w j,
    responses j (trace (snd (m w))) = (responses j (trace w) ++ X j)%list.

(** One response to the request [id]. *)
Definition once (id : nat) (answer : nat * string) (j : nat)
  : list (nat * string) :=
  if Nat.eqb id j then [answer] else [].

(** A run of [k] stars. *)
Fixpoint stars (k : nat) : string :=
  match k with
  | O => EmptyString
  | S k' => String "*"%char (stars k')
  end.

End MoreTerms.

(** * Properties *)

(** ** The export client *)

Module ExportFacts.

Import Go export Terms Scenario.

Lemma Export_return_inl (mutation : ExportOutput) (err : option error)
      (out : ExportOutput) :
  Export_return (mutation, err) = inl out <->
  err = None /\ Code (Resp mutation) = "Success" /\ out = mutation.
Proof.
  unfold Export_return.
  destruct err as [e|].
  - split; [discriminate | intros [H _]; discriminate].
  - destruct (String.eqb_spec (Code (Resp mutation)) "Success") as [Heq|Hne];
      cbn [negb].
    + split.
      * intros H. injection H as <-. auto.
      * intros (_ & _ & ->). reflexivity.
    + split; [discriminate | intros (_ & H & _); contradiction].
Qed.

(** C6.  [Export] returns an output, the one the remote mutation filled
    in with its artifact list, exactly when the mutation call returned
    no error and the response code is [Success]; an error of the call is
    returned as it is; any other code gives an error whose message
    carries the remote code and message unchanged. *)
Theorem Export_outcome (mutate : Call -> Reply) (c : Client) (ctx : Context)
        (mutation : ExportOutput) (err : option error)
        (Hreply : mutate (Export_call c ctx) = (mutation, err)) :
  (forall out, Export mutate c ctx = inl out <->
               err = None /\ Code (Resp mutation) = "Success"
               /\ out = mutation)
  /\ (forall e, err = Some e -> Export mutate c ctx = inr e)
  /\ (err = None -> Code (Resp mutation) <> "Success" ->
      Export mutate c ctx = inr (ErrorString (rejected (Resp mutation)))
      /\ Error (ErrorString (rejected (Resp mutation)))
         = "export finished with unseccessfull code " ++ dquote
             ++ Code (Resp mutation) ++ dquote ++ ": "
             ++ Message (Resp mutation)).
Proof.
  unfold Export. rewrite Hreply. split; [|split].
  - intros out. apply Export_return_inl.
  - intros e ->. reflexivity.
  - intros -> Hcode. split; [|reflexivity].
    unfold Export_return, rejected.
    destruct (String.eqb_spec (Code (Resp mutation)) "Success");
      [contradiction | reflexivity].
Qed.

Lemma Export_outcome_witness :
  Export (fun _ => (refused, None)) client0 Background
  = inr (ErrorString (rejected (Resp refused)))
  /\ Error (ErrorString (rejected (Resp refused)))
     = "export finished with unseccessfull code " ++ dquote ++ "Error"
         ++ dquote ++ ": export already in progress".
Proof.
  refine ((fun H => _)
            (Export_outcome (fun _ => (refused, None)) client0 Background
                            refused None eq_refl)).
  destruct H as (_ & _ & H).
  apply H; [reflexivity | discriminate].
Defined.

(** The context given to [Export] does not reach the call: the call's
    context is the background context, and the result is the same for any
    two contexts. *)
Lemma Export_call_background (mutate : Call -> Reply) (c : Client)
      (ctx ctx' : Context) :
  call_ctx (Export_call c ctx) = Background
  /\ Export mutate c ctx = Export mutate c ctx'.
Proof. split; reflexivity. Qed.

(** C5, on the code as it is.  Whatever context [Export] is given, the
    remote call runs under [context.Background()]: with a transport that
    honours the context of a call, [Export] under the cancelled context
    1 still returns the remote answer, where a call under that context
    is aborted with [context.Canceled]. *)
Theorem Export_ignores_cancellation :
  let ctx := WithCancel Background 1 in
  let transport := honouring [1] (fun _ => (exported, None)) in
  done [1] ctx = true
  /\ call_ctx (Export_call client0 ctx) = Background
  /\ Export transport client0 ctx = inl exported
  /\ Export_return
       (transport {| call_cli := cli client0; call_ctx := ctx;
                     call_vars := input client0 |})
     = inr Canceled.
Proof. cbv zeta. repeat split; reflexivity. Qed.

End ExportFacts.

(** ** The matcher of the sweeper *)

Module MatchFacts.

Import Go main Scenario.

(** Rows of the table Go tests [Match] with. *)
Lemma Match_examples :
  filepath.Match "abc" "abc" = (true, None)
  /\ filepath.Match "a*" "ab/c" = (false, None)
  /\ filepath.Match "a*/b" "abc/b" = (true, None)
  /\ filepath.Match "a*b*c*d*e*/f" "axbxcxdxexxx/f" = (true, None)
  /\ filepath.Match "a*b?c*x" "abxbbxdbxebxczzy" = (false, None)
  /\ filepath.Match "ab[b-d]" "abc" = (true, None)
  /\ filepath.Match "ab[^e-g]" "abc" = (true, None)
  /\ filepath.Match "a?b" "a/b" = (false, None)
  /\ filepath.Match "[]a]" "]" = (false, Some ErrBadPattern)
  /\ filepath.Match "[x-]" "z" = (false, Some ErrBadPattern)
  /\ filepath.Match "a/b[" "x" = (false, Some ErrBadPattern)
  /\ filepath.Match "*x" "xxx" = (true, None).
Proof. vm_compute. repeat split; reflexivity. Qed.

(** C3, on the code as it is.  [filepath.Match] reads the pattern as a
    shell pattern: a class of one digit followed by a literal plus sign.
    The name [export123] does not match it, the name [export1+] does,
    and the sweep of the root with [export123] and [keep] calls
    [os.RemoveAll] for nothing and leaves both directories. *)
Theorem default_pattern_is_a_glob :
  filepath.Match dgraphExportTmpPattern "export123" = (false, None)
  /\ filepath.Match dgraphExportTmpPattern "export1+" = (true, None)
  /\ (let '(err, w) :=
        cleanupTmpFiles export.Background "/tmp" dgraphExportTmpPattern
                        scenario5 in
      err = None
      /\ root (fs w) = root (fs scenario5)
      /\ removals (trace w) = []).
Proof. vm_compute. repeat split; reflexivity. Qed.

End MatchFacts.

(** ** The cleanup sweeper *)

Module SweepFacts.

Import Go export main Terms Scenario.

Lemma removals_app (a b : list Effect) :
  removals (a ++ b) = (removals a ++ removals b)%list.
Proof.
  induction a as [|e a IH]; [reflexivity|].
  destruct e; cbn; rewrite ?IH; reflexivity.
Qed.

Lemma RemoveAll_fail (q : path) (w : World) (err : error) :
  removeErr (fs w) (base q) = Some err ->
  RemoveAll q w
  = (Some err, {| fs := fs w; trace := (trace w ++ [OsRemoveAll q])%list |}).
Proof.
  intros H. unfold RemoveAll, bind, emit. cbn. rewrite H. reflexivity.
Qed.

Lemma RemoveAll_ok (q : path) (w : World) :
  removeErr (fs w) (base q) = None ->
  RemoveAll q w
  = (None,
     {| fs := set_root (fs w)
                (filter (fun child => negb (String.eqb (fst child) (base q)))
                        (root (fs w)));
        trace := (trace w ++ [OsRemoveAll q])%list |}).
Proof.
  intros H. unfold RemoveAll, bind, emit. cbn. rewrite H. reflexivity.
Qed.

(** One turn of the loop, by the cases of the entry. *)
Lemma sweep_skip (prefix pattern : string) (e : DirEntry)
      (rest : list DirEntry) (w : World) :
  wanted pattern e = false -> failure pattern (fs w) e = None ->
  sweep prefix pattern (e :: rest) w = sweep prefix pattern rest w.
Proof.
  unfold wanted, failure. cbn [sweep].
  destruct (filepath.Match pattern (Name e)) as [m [err|]];
    [discriminate|].
  intros -> _. reflexivity.
Qed.

Lemma sweep_bad_pattern (prefix pattern : string) (e : DirEntry)
      (rest : list DirEntry) (w : World) (err : error) :
  wanted pattern e = false -> failure pattern (fs w) e = Some err ->
  sweep prefix pattern (e :: rest) w = (Some err, w).
Proof.
  unfold wanted, failure. cbn [sweep].
  destruct (filepath.Match pattern (Name e)) as [m [err'|]].
  - intros _ H. injection H as ->. reflexivity.
  - intros ->. discriminate.
Qed.

Lemma sweep_remove_fail (prefix pattern : string) (e : DirEntry)
      (rest : list DirEntry) (w : World) (err : error) :
  wanted pattern e = true -> failure pattern (fs w) e = Some err ->
  let q := Join prefix (Name e) in
  sweep prefix pattern (e :: rest) w
  = (Some err, logged w [Klog (LogRemoving q); OsRemoveAll q]).
Proof.
  unfold wanted, failure. cbn [sweep].
  destruct (filepath.Match pattern (Name e)) as [m [err'|]];
    [discriminate|].
  intros -> H. cbv zeta. unfold bind at 1. cbn [emit].
  unfold bind. rewrite RemoveAll_fail with (err := err) by exact H.
  unfold ret, logged. cbn. rewrite <- app_assoc. reflexivity.
Qed.

Lemma sweep_remove_ok (prefix pattern : string) (e : DirEntry)
      (rest : list DirEntry) (w : World) :
  wanted pattern e = true -> failure pattern (fs w) e = None ->
  let q := Join prefix (Name e) in
  sweep prefix pattern (e :: rest) w
  = sweep prefix pattern rest
          {| fs := set_root (fs w)
                     (filter (fun child =>
                                negb (String.eqb (fst child) (Name e)))
                             (root (fs w)));
             trace := (trace w
                       ++ [Klog (LogRemoving q); OsRemoveAll q])%list |}.
Proof.
  unfold wanted, failure. cbn [sweep].
  destruct (filepath.Match pattern (Name e)) as [m [err'|]];
    [discriminate|].
  intros -> H. cbv zeta. unfold bind at 1. cbn [emit].
  unfold bind. rewrite RemoveAll_ok by exact H.
  cbn. rewrite <- app_assoc. reflexivity.
Qed.

Lemma wanted_failure_cases (pattern : string) (f : FS) (e : DirEntry) :
  (wanted pattern e = false \/ wanted pattern e = true)
  /\ (failure pattern f e = None \/ exists err, failure pattern f e = Some err).
Proof.
  split.
  - destruct (wanted pattern e); auto.
  - destruct (failure pattern f e) as [err|]; eauto.
Qed.


(** What a run of the loop leaves behind: effects of removing only, every
    removal asked for a wanted entry of the listing, and a root that lost
    exactly the children whose removal succeeded. *)
Lemma sweep_frame (prefix pattern : string) (entries : list DirEntry) :
  forall (w w' : World) (err : option error),
    sweep prefix pattern entries w = (err, w') ->
    readErr (fs w') = readErr (fs w)
    /\ removeErr (fs w') = removeErr (fs w)
    /\ exists (tr : list Effect) (removed : list string),
        trace w' = (trace w ++ tr)%list
        /\ Forall removing tr
        /\ (forall q, In q (removals tr) ->
                      exists e, In e entries /\ wanted pattern e = true
                                /\ q = Join prefix (Name e))
        /\ (forall n, In n removed ->
                      exists e, In e entries /\ wanted pattern e = true
                                /\ Name e = n)
        /\ (forall ch, In ch (root (fs w')) <->
                       In ch (root (fs w)) /\ ~ In (fst ch) removed).
Proof.
  induction entries as [|e rest IH]; intros w w' err Hrun.
  - cbn in Hrun. injection Hrun as <- <-.
    split; [reflexivity|split; [reflexivity|]].
    exists [], []. rewrite app_nil_r.
    split; [reflexivity|split; [constructor|]].
    split; [intros ? []|split; [intros ? []|]].
    intros ch. cbn. tauto.
  - destruct (wanted_failure_cases pattern (fs w) e) as [[Hw|Hw] [Hf|[x Hf]]].
    + rewrite sweep_skip in Hrun by assumption.
      destruct (IH _ _ _ Hrun)
        as (Hr & Hx & tr & removed & Ht & Hall & Hq & Hn & Hroot).
      split; [assumption|split; [assumption|]].
      exists tr, removed.
      split; [assumption|split; [assumption|]].
      split; [|split; [|assumption]].
      * intros q Hin. destruct (Hq q Hin) as (e' & ? & ? & ?).
        exists e'. cbn. auto.
      * intros n Hin. destruct (Hn n Hin) as (e' & ? & ? & ?).
        exists e'. cbn. auto.
    + rewrite sweep_bad_pattern with (err := x) in Hrun by assumption.
      injection Hrun as <- <-.
      split; [reflexivity|split; [reflexivity|]].
      exists [], []. rewrite app_nil_r.
      split; [reflexivity|split; [constructor|]].
      split; [intros ? []|split; [intros ? []|]].
      intros ch. cbn. tauto.
    + rewrite sweep_remove_ok in Hrun by assumption.
      destruct (IH _ _ _ Hrun)
        as (Hr & Hx & tr & removed & Ht & Hall & Hq & Hn & Hroot).
      cbn in Hr, Hx, Ht.
      split; [assumption|split; [assumption|]].
      exists ([Klog (LogRemoving (Join prefix (Name e)));
               OsRemoveAll (Join prefix (Name e))] ++ tr)%list,
             (Name e :: removed).
      split; [|split; [|split; [|split]]].
      * rewrite Ht, <- app_assoc. reflexivity.
      * repeat constructor. exact Hall.
      * cbn. intros q [<-|Hin].
        -- exists e. cbn. auto.
        -- destruct (Hq q Hin) as (e' & ? & ? & ?). exists e'. cbn. auto.
      * intros n [<-|Hin].
        -- exists e. cbn. auto.
        -- destruct (Hn n Hin) as (e' & ? & ? & ?). exists e'. cbn. auto.
      * intros ch. rewrite Hroot. cbn. rewrite filter_In.
        destruct (String.eqb_spec (fst ch) (Name e)) as [Heq|Hne]; cbn.
        -- split; [intros [[_ H] _]; discriminate|].
           intros [_ H]. exfalso. apply H. left. symmetry. exact Heq.
        -- split.
           ++ intros [[H _] Hnot]. split; [exact H|].
              intros [Heq|Hin]; [apply Hne; symmetry; exact Heq|tauto].
           ++ intros [H Hnot]. split; [split; [exact H|reflexivity]|].
              intros Hin. apply Hnot. right. exact Hin.
    + rewrite sweep_remove_fail with (err := x) in Hrun by assumption.
      injection Hrun as <- <-.
      split; [reflexivity|split; [reflexivity|]].
      exists [Klog (LogRemoving (Join prefix (Name e)));
              OsRemoveAll (Join prefix (Name e))], [].
      split; [reflexivity|split; [repeat constructor|]].
      split; [|split; [intros ? []|]].
      * cbn. intros q [<-|[]]. exists e. cbn. auto.
      * intros ch. cbn. tauto.
Qed.

Lemma cleanupTmpFiles_unfold (ctx : Context) (prefix pattern : string)
      (w : World) :
  cleanupTmpFiles ctx prefix pattern w
  = match readErr (fs w) with
    | Some err => (Some err, logged w [OsReadDir prefix])
    | None => sweep prefix pattern (map entry (root (fs w)))
                    (logged w [OsReadDir prefix])
    end.
Proof.
  unfold cleanupTmpFiles, ReadDir, bind, emit, ret, logged. cbn.
  destruct (readErr (fs w)); reflexivity.
Qed.



(** The loop stops at the first entry that fails. *)
Lemma sweep_first_failure (prefix pattern : string) (pre : list DirEntry) :
  forall (w : World) (e : DirEntry) (post : list DirEntry) (err : error),
    (forall x, In x pre -> failure pattern (fs w) x = None) ->
    failure pattern (fs w) e = Some err ->
    exists w',
      sweep prefix pattern (pre ++ e :: post) w = (Some err, w')
      /\ removals (trace w')
         = (removals (trace w)
            ++ map (fun x => Join prefix (Name x))
                   (filter (wanted pattern) (pre ++ [e])))%list.
Proof.
  induction pre as [|x pre IH]; intros w e post err Hpre He.
  - cbn [app filter].
    destruct (wanted pattern e) eqn:Hw.
    + rewrite sweep_remove_fail with (err := err) by assumption.
      eexists. split; [reflexivity|].
      cbn. rewrite removals_app. reflexivity.
    + rewrite sweep_bad_pattern with (err := err) by assumption.
      eexists. split; [reflexivity|].
      cbn. rewrite app_nil_r. reflexivity.
  - assert (Hx : failure pattern (fs w) x = None) by (apply Hpre; left; auto).
    rewrite <- !app_comm_cons. cbn [filter].
    destruct (wanted pattern x) eqn:Hw.
    + rewrite sweep_remove_ok by assumption.
      match goal with
      | |- context [sweep _ _ _ ?w1] =>
          destruct (IH w1 e post err) as (w' & Hrun & Hrem)
      end.
      * intros y Hy. exact (Hpre y (or_intror Hy)).
      * exact He.
      * exists w'. split; [exact Hrun|].
        rewrite Hrem. cbn [trace]. rewrite removals_app. cbn.
        rewrite <- app_assoc. reflexivity.
    + rewrite sweep_skip by assumption.
      apply IH; [|exact He].
      intros y Hy. apply Hpre. right. exact Hy.
Qed.

(** Without a failing entry the loop visits the whole listing. *)
Lemma sweep_no_failure (prefix pattern : string) (entries : list DirEntry) :
  forall (w : World),
    (forall x, In x entries -> failure pattern (fs w) x = None) ->
    exists w',
      sweep prefix pattern entries w = (None, w')
      /\ removals (trace w')
         = (removals (trace w)
            ++ map (fun x => Join prefix (Name x))
                   (filter (wanted pattern) entries))%list.
Proof.
  induction entries as [|x entries IH]; intros w Hall.
  - exists w. split; [reflexivity|]. cbn. rewrite app_nil_r. reflexivity.
  - assert (Hx : failure pattern (fs w) x = None) by (apply Hall; left; auto).
    cbn [filter].
    destruct (wanted pattern x) eqn:Hw.
    + rewrite sweep_remove_ok by assumption.
      match goal with
      | |- context [sweep _ _ _ ?w1] =>
          destruct (IH w1) as (w' & Hrun & Hrem)
      end.
      * intros y Hy. exact (Hall y (or_intror Hy)).
      * exists w'. split; [exact Hrun|].
        rewrite Hrem. cbn [trace]. rewrite removals_app. cbn.
        rewrite <- app_assoc. reflexivity.
    + rewrite sweep_skip by assumption.
      apply IH. intros y Hy. apply Hall. right. exact Hy.
Qed.

(** C8.  When listing the root fails the sweep returns that error,
    changes nothing and removes nothing.  Otherwise the sweep returns the
    error of the first entry of the listing that fails, be it in the
    match or in the removal, and has called [os.RemoveAll] for the wanted
    entries up to and including that one and for none after it; without
    a failing entry it returns no error and has called it for all wanted
    entries. *)
Theorem cleanup_first_failure (ctx : Context) (prefix pattern : string)
        (w : World) :
  let r := cleanupTmpFiles ctx prefix pattern w in
  let call (x : DirEntry) := Join prefix (Name x) in
  (forall err, readErr (fs w) = Some err ->
               fst r = Some err
               /\ fs (snd r) = fs w
               /\ removals (trace (snd r)) = removals (trace w))
  /\ (forall pre e post err,
         readErr (fs w) = None ->
         map entry (root (fs w)) = (pre ++ e :: post)%list ->
         (forall x, In x pre -> failure pattern (fs w) x = None) ->
         failure pattern (fs w) e = Some err ->
         fst r = Some err
         /\ removals (trace (snd r))
            = (removals (trace w)
               ++ map call (filter (wanted pattern) (pre ++ [e])))%list)
  /\ (readErr (fs w) = None ->
      (forall x, In x (map entry (root (fs w))) ->
                 failure pattern (fs w) x = None) ->
      fst r = None
      /\ removals (trace (snd r))
         = (removals (trace w)
            ++ map call (filter (wanted pattern)
                                (map entry (root (fs w)))))%list).
Proof.
  cbv zeta. rewrite cleanupTmpFiles_unfold.
  split; [|split].
  - intros err ->. cbn. rewrite removals_app. cbn.
    rewrite app_nil_r. auto.
  - intros pre e post err -> Hlist Hpre He. rewrite Hlist.
    destruct (sweep_first_failure prefix pattern pre
                (logged w [OsReadDir prefix]) e post err Hpre He)
      as (w' & -> & Hrem).
    cbn [fst snd]. split; [reflexivity|].
    rewrite Hrem. cbn [logged trace]. rewrite removals_app. cbn.
    rewrite app_nil_r. reflexivity.
  - intros -> Hall.
    destruct (sweep_no_failure prefix pattern (map entry (root (fs w)))
                (logged w [OsReadDir prefix]) Hall)
      as (w' & -> & Hrem).
    cbn [fst snd]. split; [reflexivity|].
    rewrite Hrem. cbn [logged trace]. rewrite removals_app. cbn.
    rewrite app_nil_r. reflexivity.
Qed.


Lemma cleanup_first_failure_witness :
  let w := {| fs := locked; trace := [] |} in
  let r := cleanupTmpFiles Background "/tmp" dgraphExportTmpPattern w in
  readErr (fs w) = None
  /\ fst r = Some (PathError "unlinkat" "/tmp/export2+" "permission denied")
  /\ removals (trace (snd r))
     = [Join "/tmp" "export1+"; Join "/tmp" "export2+"].
Proof.
  cbv zeta. split; [reflexivity|].
  refine ((fun H => _)
            (cleanup_first_failure Background "/tmp" dgraphExportTmpPattern
                                   {| fs := locked; trace := [] |})).
  destruct H as (_ & H & _).
  apply (H [{| Name := "export1+"; IsDir := true |}]
           {| Name := "export2+"; IsDir := true |}
           [{| Name := "export3+"; IsDir := false |};
            {| Name := "export4+"; IsDir := true |};
            {| Name := "keep"; IsDir := true |}]).
  - reflexivity.
  - reflexivity.
  - intros x [<-|[]]. reflexivity.
  - reflexivity.
Defined.

End SweepFacts.

(** ** Cleanup after an invocation, on both trigger paths *)

Module TriggerFacts.

Import Go export main Terms Scenario SweepFacts.

Lemma removing_quiet (tr : list Effect) : Forall removing tr -> Forall quiet tr.
Proof.
  apply Forall_impl. intros [[]| | | | |]; cbn; tauto.
Qed.

Lemma sweeps_app (a b : list Effect) : sweeps (a ++ b) = sweeps a + sweeps b.
Proof. unfold sweeps. rewrite filter_app, length_app. reflexivity. Qed.

Lemma issued_app (f : Origin -> bool) (a b : list Effect) :
  issued f (a ++ b) = issued f a + issued f b.
Proof. unfold issued. rewrite filter_app, length_app. reflexivity. Qed.

Lemma returned_app (f : Origin -> bool) (a b : list Effect) :
  returned f (a ++ b) = returned f a + returned f b.
Proof. unfold returned. rewrite filter_app, length_app. reflexivity. Qed.

Lemma responses_app (id : nat) (a b : list Effect) :
  responses id (a ++ b) = (responses id a ++ responses id b)%list.
Proof.
  induction a as [|e a IH]; [reflexivity|].
  destruct e; cbn; rewrite ?IH; try reflexivity.
  destruct (Nat.eqb id0 id); reflexivity.
Qed.

Lemma quiet_counts (tr : list Effect) :
  Forall quiet tr ->
  sweeps tr = 0
  /\ (forall f, issued f tr = 0)
  /\ (forall f, returned f tr = 0)
  /\ (forall id, responses id tr = []).
Proof.
  induction 1 as [|e tr He _ IH]; [repeat split|].
  destruct IH as (Hs & Hi & Hr & Hw).
  destruct e; cbn in He; try contradiction;
    (split; [exact Hs|split; [exact Hi|split; [exact Hr|exact Hw]]]).
Qed.

(** A sweep that is enabled: the listing, then quiet effects only. *)
Lemma cleanupIfEnabled_on (p : dgraphParams) (ctx : Context) (w : World) :
  cleanup (tmp p) = true ->
  exists tr,
    trace (snd (cleanupIfEnabled p ctx w))
    = (trace w ++ OsReadDir (prefix (tmp p)) :: tr)%list
    /\ Forall quiet tr.
Proof.
  intros Hon. unfold cleanupIfEnabled. rewrite Hon. unfold bind.
  rewrite cleanupTmpFiles_unfold.
  destruct (readErr (fs w)) as [err|].
  - exists [Klog (LogError err)]. cbn. rewrite <- app_assoc.
    split; [reflexivity|repeat constructor].
  - destruct (sweep (prefix (tmp p)) (pattern (tmp p))
                    (map entry (root (fs w)))
                    (logged w [OsReadDir (prefix (tmp p))]))
      as [err w'] eqn:Hrun.
    destruct (sweep_frame _ _ _ _ _ _ Hrun)
      as (_ & _ & tr & _ & Ht & Hall & _).
    cbn in Ht. apply removing_quiet in Hall.
    destruct err as [e|].
    + exists (tr ++ [Klog (LogError e)])%list. cbn. rewrite Ht.
      rewrite <- !app_assoc. split; [reflexivity|].
      apply Forall_app. split; [exact Hall|repeat constructor].
    + exists tr. cbn. rewrite Ht, <- app_assoc. auto.
Qed.

Lemma cleanupIfEnabled_off (p : dgraphParams) (ctx : Context) (w : World) :
  cleanup (tmp p) = false -> cleanupIfEnabled p ctx w = (tt, w).
Proof. intros Hoff. unfold cleanupIfEnabled. rewrite Hoff. reflexivity. Qed.

(** The sweep neither adds a child nor fails to start. *)
Lemma cleanupIfEnabled_any (p : dgraphParams) (ctx : Context) (w : World) :
  exists tr,
    trace (snd (cleanupIfEnabled p ctx w)) = (trace w ++ tr)%list
    /\ (forall f, issued f tr = 0)
    /\ (forall f, returned f tr = 0)
    /\ (forall id, responses id tr = []).
Proof.
  destruct (cleanup (tmp p)) eqn:Hc.
  - destruct (cleanupIfEnabled_on p ctx w Hc) as (tr & Ht & Hq).
    exists (OsReadDir (prefix (tmp p)) :: tr). split; [exact Ht|].
    destruct (quiet_counts tr Hq) as (_ & Hi & Hr & Hw).
    split; [exact Hi|split; [exact Hr|exact Hw]].
  - rewrite cleanupIfEnabled_off by exact Hc.
    exists []. cbn. rewrite app_nil_r. auto.
Qed.

Section Paths.

Variable url_Parse : string -> option error.
Variable json_Marshal : ExportOutput -> string + error.
Variable p : dgraphParams.
Variable mutate : Call -> Reply.
Variable ctx : Context.

(** The timer path after a failed export: the error is logged and the
    loop goes on to its next turn. *)
Lemma iteration_failed (c : Client) (w : World) (err : error) :
  Export mutate c ctx = inr err ->
  exportLoop_iteration p mutate c ctx w
  = (tt, logged w [Klog (LogInfo "make export export request");
                   Mutate Timer (Export_call c ctx); MutateDone Timer;
                   Klog (LogError err)]).
Proof.
  unfold Export. intros H. steps. rewrite H. steps.
  rewrite <- !app_assoc. reflexivity.
Qed.

(** The timer path after a successful export. *)
Lemma iteration_succeeded (c : Client) (w : World) (out : ExportOutput) :
  Export mutate c ctx = inl out ->
  exportLoop_iteration p mutate c ctx w
  = cleanupIfEnabled p ctx
      (logged w [Klog (LogInfo "make export export request");
                 Mutate Timer (Export_call c ctx); MutateDone Timer;
                 Klog (LogFiles (GetFiles out))]).
Proof.
  unfold Export. intros H. steps. rewrite H. steps.
  rewrite <- !app_assoc. reflexivity.
Qed.

(** The handler, by the ways it can go. *)
Lemma handler_not_post (id : nat) (method : string) (w : World) :
  method <> "POST" ->
  apiExportHandler url_Parse json_Marshal p mutate ctx id method w
  = (tt, snd (cleanupIfEnabled p ctx
                (logged w [HttpWrite id 405
                             ("Method not allowed" ++ newline)]))).
Proof.
  intros H. steps.
  destruct (String.eqb_spec method "POST"); [contradiction|].
  destruct (cleanupIfEnabled p ctx _) as [[] w']. reflexivity.
Qed.

Lemma handler_no_client (id : nat) (w : World) (err : error) :
  newClient url_Parse p = inr err ->
  apiExportHandler url_Parse json_Marshal p mutate ctx id "POST" w
  = (tt, logged w [HttpWrite id 200 (Error err ++ newline)]).
Proof. intros H. steps. rewrite H, String.eqb_refl. reflexivity. Qed.

Lemma handler_failed (id : nat) (w : World) (c : Client) (err : error) :
  newClient url_Parse p = inl c ->
  Export mutate c ctx = inr err ->
  apiExportHandler url_Parse json_Marshal p mutate ctx id "POST" w
  = (tt, logged w [Mutate (OnDemand id) (Export_call c ctx);
                   MutateDone (OnDemand id);
                   HttpWrite id 200 (Error err ++ newline)]).
Proof.
  unfold Export. intros Hc H. steps. rewrite Hc, String.eqb_refl. steps.
  rewrite H. steps.
  rewrite <- !app_assoc. reflexivity.
Qed.

Lemma handler_not_marshalled (id : nat) (w : World) (c : Client)
      (out : ExportOutput) (err : error) :
  newClient url_Parse p = inl c ->
  Export mutate c ctx = inl out ->
  json_Marshal out = inr err ->
  apiExportHandler url_Parse json_Marshal p mutate ctx id "POST" w
  = (tt, logged w [Mutate (OnDemand id) (Export_call c ctx);
                   MutateDone (OnDemand id);
                   HttpWrite id 200 (Error err ++ newline)]).
Proof.
  unfold Export. intros Hc H Hm. steps. rewrite Hc, String.eqb_refl. steps.
  rewrite H, Hm. steps. rewrite <- !app_assoc. reflexivity.
Qed.

Lemma handler_succeeded (id : nat) (w : World) (c : Client)
      (out : ExportOutput) (b : string) :
  newClient url_Parse p = inl c ->
  Export mutate c ctx = inl out ->
  json_Marshal out = inl b ->
  apiExportHandler url_Parse json_Marshal p mutate ctx id "POST" w
  = cleanupIfEnabled p ctx
      (logged w [Mutate (OnDemand id) (Export_call c ctx);
                 MutateDone (OnDemand id);
                 HttpWrite id 200 (b ++ newline)]).
Proof.
  unfold Export. intros Hc H Hm. steps. rewrite Hc, String.eqb_refl. steps.
  rewrite H, Hm. steps. rewrite <- !app_assoc. reflexivity.
Qed.

(** An enabled sweep that follows the effects [l]. *)
Lemma then_swept (w : World) (l : list Effect) :
  cleanup (tmp p) = true ->
  exists tr,
    trace (snd (cleanupIfEnabled p ctx (logged w l)))
    = (trace w ++ (l ++ [OsReadDir (prefix (tmp p))]) ++ tr)%list
    /\ sweeps tr = 0.
Proof.
  intros Hon.
  destruct (cleanupIfEnabled_on p ctx (logged w l) Hon) as (tr & Ht & Hq).
  exists tr. split.
  - rewrite Ht. cbn [logged trace]. rewrite <- !app_assoc. reflexivity.
  - apply quiet_counts. exact Hq.
Qed.

End Paths.

(** An enabled cleanup block is [cleanupTmpFiles] on the configured
    directory with the configured pattern, its error logged. *)
Lemma cleanupIfEnabled_sweeps (p : dgraphParams) (ctx : Context) (w : World) :
  cleanup (tmp p) = true ->
  snd (cleanupIfEnabled p ctx w)
  = match fst (cleanupTmpFiles ctx (prefix (tmp p)) (pattern (tmp p)) w) with
    | Some e =>
        logged (snd (cleanupTmpFiles ctx (prefix (tmp p)) (pattern (tmp p)) w))
               [Klog (LogError e)]
    | None => snd (cleanupTmpFiles ctx (prefix (tmp p)) (pattern (tmp p)) w)
    end.
Proof.
  intros Hon. unfold cleanupIfEnabled, bind. rewrite Hon.
  destruct (cleanupTmpFiles ctx (prefix (tmp p)) (pattern (tmp p)) w)
    as [[e|] w']; reflexivity.
Qed.

(** An enabled cleanup block that follows effects without a listing is
    one sweep more. *)
Lemma cleanupIfEnabled_once (p : dgraphParams) (ctx : Context) (w : World)
      (l : list Effect) :
  cleanup (tmp p) = true -> sweeps l = 0 ->
  sweeps (trace (snd (cleanupIfEnabled p ctx (logged w l))))
  = S (sweeps (trace w)).
Proof.
  intros Hon Hl.
  destruct (then_swept p ctx w l Hon) as (tr & Ht & Hs).
  rewrite Ht, !sweeps_app, Hl, Hs. cbn. lia.
Qed.

Lemma logged_sweeps (w : World) (l : list Effect) :
  sweeps l = 0 -> sweeps (trace (logged w l)) = sweeps (trace w).
Proof. intros Hl. cbn [logged trace]. rewrite sweeps_app, Hl. lia. Qed.

(** C4, as the code has it.  With the cleanup enabled, an invocation that
    succeeded is followed by [cleanupTmpFiles] on the configured directory
    with the configured pattern, and by the log of its error if it has
    one, and an invocation that failed is followed by no sweep, on both
    paths.  The timer loop ends in the world that [cleanupTmpFiles] leaves
    of the one in which the exported files are logged, one sweep on; after
    a failed export it has only logged the error.  The handler ends in the
    world that [cleanupTmpFiles] leaves of the one in which the serialised
    output is written, one sweep on; after a failed export it has only
    written the error. *)
Theorem sweep_follows_success
        (url_Parse : string -> option error)
        (json_Marshal : ExportOutput -> string + error)
        (p : dgraphParams) (mutate : Call -> Reply) (c : Client)
        (ctx : Context) (id : nat) (w : World)
        (Hon : cleanup (tmp p) = true) :
  let call := Export_call c ctx in
  let sweeper := cleanupTmpFiles ctx (prefix (tmp p)) (pattern (tmp p)) in
  let swept :=
    fun w1 : World =>
      match fst (sweeper w1) with
      | Some e => logged (snd (sweeper w1)) [Klog (LogError e)]
      | None => snd (sweeper w1)
      end in
  let timer := snd (exportLoop_iteration p mutate c ctx w) in
  let request :=
    snd (apiExportHandler url_Parse json_Marshal p mutate ctx id "POST" w) in
  (forall out, Export mutate c ctx = inl out ->
     timer = swept (logged w [Klog (LogInfo "make export export request");
                              Mutate Timer call; MutateDone Timer;
                              Klog (LogFiles (GetFiles out))])
     /\ sweeps (trace timer) = S (sweeps (trace w)))
  /\ (forall err, Export mutate c ctx = inr err ->
        timer = logged w [Klog (LogInfo "make export export request");
                          Mutate Timer call; MutateDone Timer;
                          Klog (LogError err)]
        /\ sweeps (trace timer) = sweeps (trace w))
  /\ (forall out b,
        newClient url_Parse p = inl c ->
        Export mutate c ctx = inl out -> json_Marshal out = inl b ->
        request = swept (logged w [Mutate (OnDemand id) call;
                                   MutateDone (OnDemand id);
                                   HttpWrite id 200 (b ++ newline)])
        /\ sweeps (trace request) = S (sweeps (trace w)))
  /\ (forall err,
        newClient url_Parse p = inl c ->
        Export mutate c ctx = inr err ->
        request = logged w [Mutate (OnDemand id) call;
                            MutateDone (OnDemand id);
                            HttpWrite id 200 (Error err ++ newline)]
        /\ sweeps (trace request) = sweeps (trace w)).
Proof.
  cbv zeta. split; [|split; [|split]].
  - intros out H. rewrite (iteration_succeeded p mutate ctx c w out H).
    split.
    + apply cleanupIfEnabled_sweeps. exact Hon.
    + apply cleanupIfEnabled_once; [exact Hon|reflexivity].
  - intros err H. rewrite (iteration_failed p mutate ctx c w err H).
    split; [reflexivity|]. apply logged_sweeps. reflexivity.
  - intros out b Hc H Hm.
    rewrite (handler_succeeded url_Parse json_Marshal p mutate ctx id w c
                               out b Hc H Hm).
    split.
    + apply cleanupIfEnabled_sweeps. exact Hon.
    + apply cleanupIfEnabled_once; [exact Hon|reflexivity].
  - intros err Hc H.
    rewrite (handler_failed url_Parse json_Marshal p mutate ctx id w c err
                            Hc H).
    split; [reflexivity|]. apply logged_sweeps. reflexivity.
Qed.

Lemma sweep_follows_success_witness :
  let sweeper :=
    cleanupTmpFiles leaderCtx (prefix (tmp params0)) (pattern (tmp params0)) in
  let logging :=
    logged scenario5
           [Klog (LogInfo "make export export request");
            Mutate Timer (Export_call client0 leaderCtx); MutateDone Timer;
            Klog (LogFiles (GetFiles exported))] in
  let timer :=
    fun reply =>
      snd (exportLoop_iteration params0 (fun _ => reply) client0 leaderCtx
                                scenario5) in
  cleanup (tmp params0) = true
  /\ (timer (exported, None)
      = match fst (sweeper logging) with
        | Some e => logged (snd (sweeper logging)) [Klog (LogError e)]
        | None => snd (sweeper logging)
        end
      /\ sweeps (trace (timer (exported, None))) = 1)
  /\ (timer (refused, None)
      = logged scenario5
               [Klog (LogInfo "make export export request");
                Mutate Timer (Export_call client0 leaderCtx); MutateDone Timer;
                Klog (LogError (ErrorString (rejected (Resp refused))))]
      /\ sweeps (trace (timer (refused, None))) = 0).
Proof.
  cbv zeta. split; [reflexivity|]. split.
  - refine ((fun H => _)
              (sweep_follows_success url_ok marshal0 params0
                 (fun _ => (exported, None)) client0 leaderCtx 0 scenario5
                 eq_refl)).
    destruct H as (H & _). apply (H exported). reflexivity.
  - refine ((fun H => _)
              (sweep_follows_success url_ok marshal0 params0
                 (fun _ => (refused, None)) client0 leaderCtx 0 scenario5
                 eq_refl)).
    destruct H as (_ & H & _). apply H. reflexivity.
Defined.

(** C4 as stated fails: with the cleanup enabled, a timer invocation and
    an on-demand invocation that the remote end refuses are each followed
    by no sweep. *)
Lemma no_sweep_after_refused_export :
  let mutate := fun _ : Call => (refused, None) in
  let timer :=
    snd (exportLoop_iteration params0 mutate client0 leaderCtx scenario5) in
  let request :=
    snd (apiExportHandler url_ok marshal0 params0 mutate mainCtx 0 "POST"
                          scenario5) in
  cleanup (tmp params0) = true
  /\ issued isTimer (trace timer) = 1 /\ sweeps (trace timer) = 0
  /\ issued isOnDemand (trace request) = 1 /\ sweeps (trace request) = 0.
Proof. vm_compute. repeat split; reflexivity. Qed.

(** C10, as the code has it.  With the cleanup enabled, a request with a
    method other than POST is answered with 405, and a POST request whose
    export succeeded and was serialised is answered with the output; each
    is then followed by [cleanupTmpFiles] on the configured directory with
    the configured pattern, and by the log of its error if it has one:
    the handler ends in the world that [cleanupTmpFiles] leaves of the one
    in which the response is written, one sweep on.  A POST request for
    which the client could not be built, the export failed or the
    serialisation failed is answered with the error and no sweep runs. *)
Theorem handler_sweeps
        (url_Parse : string -> option error)
        (json_Marshal : ExportOutput -> string + error)
        (p : dgraphParams) (mutate : Call -> Reply)
        (ctx : Context) (id : nat) (w : World)
        (Hon : cleanup (tmp p) = true) :
  let sweeper := cleanupTmpFiles ctx (prefix (tmp p)) (pattern (tmp p)) in
  let swept :=
    fun w1 : World =>
      match fst (sweeper w1) with
      | Some e => logged (snd (sweeper w1)) [Klog (LogError e)]
      | None => snd (sweeper w1)
      end in
  let handle :=
    fun method =>
      snd (apiExportHandler url_Parse json_Marshal p mutate ctx id method w) in
  let answered := fun body => HttpWrite id 200 (body ++ newline) in
  (forall method, method <> "POST" ->
     handle method
     = swept (logged w [HttpWrite id 405 ("Method not allowed" ++ newline)])
     /\ sweeps (trace (handle method)) = S (sweeps (trace w)))
  /\ (forall c out b,
        newClient url_Parse p = inl c ->
        Export mutate c ctx = inl out -> json_Marshal out = inl b ->
        handle "POST"
        = swept (logged w [Mutate (OnDemand id) (Export_call c ctx);
                           MutateDone (OnDemand id); answered b])
        /\ sweeps (trace (handle "POST")) = S (sweeps (trace w)))
  /\ (forall err,
        newClient url_Parse p = inr err ->
        handle "POST" = logged w [answered (Error err)]
        /\ sweeps (trace (handle "POST")) = sweeps (trace w))
  /\ (forall c err,
        newClient url_Parse p = inl c -> Export mutate c ctx = inr err ->
        handle "POST" = logged w [Mutate (OnDemand id) (Export_call c ctx);
                                  MutateDone (OnDemand id);
                                  answered (Error err)]
        /\ sweeps (trace (handle "POST")) = sweeps (trace w))
  /\ (forall c out err,
        newClient url_Parse p = inl c ->
        Export mutate c ctx = inl out -> json_Marshal out = inr err ->
        handle "POST" = logged w [Mutate (OnDemand id) (Export_call c ctx);
                                  MutateDone (OnDemand id);
                                  answered (Error err)]
        /\ sweeps (trace (handle "POST")) = sweeps (trace w)).
Proof.
  cbv zeta. split; [|split; [|split; [|split]]].
  - intros method H.
    rewrite (handler_not_post url_Parse json_Marshal p mutate ctx id method
                              w H).
    cbn [snd]. split.
    + apply cleanupIfEnabled_sweeps. exact Hon.
    + apply cleanupIfEnabled_once; [exact Hon|reflexivity].
  - intros c out b Hc H Hm.
    rewrite (handler_succeeded url_Parse json_Marshal p mutate ctx id w c
                               out b Hc H Hm).
    split.
    + apply cleanupIfEnabled_sweeps. exact Hon.
    + apply cleanupIfEnabled_once; [exact Hon|reflexivity].
  - intros err Hc.
    rewrite (handler_no_client url_Parse json_Marshal p mutate ctx id w err
                               Hc).
    split; [reflexivity|]. apply logged_sweeps. reflexivity.
  - intros c err Hc H.
    rewrite (handler_failed url_Parse json_Marshal p mutate ctx id w c err
                            Hc H).
    split; [reflexivity|]. apply logged_sweeps. reflexivity.
  - intros c out err Hc H Hm.
    rewrite (handler_not_marshalled url_Parse json_Marshal p mutate ctx id w
                                    c out err Hc H Hm).
    split; [reflexivity|]. apply logged_sweeps. reflexivity.
Qed.

Lemma handler_sweeps_witness :
  let sweeper :=
    cleanupTmpFiles mainCtx (prefix (tmp params0)) (pattern (tmp params0)) in
  let swept :=
    fun w1 : World =>
      match fst (sweeper w1) with
      | Some e => logged (snd (sweeper w1)) [Klog (LogError e)]
      | None => snd (sweeper w1)
      end in
  let handle :=
    fun reply method =>
      snd (apiExportHandler url_ok marshal0 params0 (fun _ => reply) mainCtx 7
                            method scenario5) in
  let body :=
    "{Response:{Message:Export completed.,Code:Success},"
      ++ "ExportedFiles:[f1.rdf,f2.rdf]}" in
  cleanup (tmp params0) = true
  /\ (handle (exported, None) "GET"
      = swept (logged scenario5
                      [HttpWrite 7 405 ("Method not allowed" ++ newline)])
      /\ sweeps (trace (handle (exported, None) "GET")) = 1)
  /\ (handle (exported, None) "POST"
      = swept (logged scenario5
                      [Mutate (OnDemand 7) (Export_call client0 mainCtx);
                       MutateDone (OnDemand 7);
                       HttpWrite 7 200 (body ++ newline)])
      /\ sweeps (trace (handle (exported, None) "POST")) = 1)
  /\ (handle (refused, None) "POST"
      = logged scenario5
               [Mutate (OnDemand 7) (Export_call client0 mainCtx);
                MutateDone (OnDemand 7);
                HttpWrite 7 200 (rejected (Resp refused) ++ newline)]
      /\ sweeps (trace (handle (refused, None) "POST")) = 0).
Proof.
  cbv zeta. split; [reflexivity|]. split; [|split].
  - refine ((fun H => _)
              (handler_sweeps url_ok marshal0 params0
                 (fun _ => (exported, None)) mainCtx 7 scenario5 eq_refl)).
    destruct H as (H & _). apply H. discriminate.
  - refine ((fun H => _)
              (handler_sweeps url_ok marshal0 params0
                 (fun _ => (exported, None)) mainCtx 7 scenario5 eq_refl)).
    destruct H as (_ & H & _).
    apply (H client0 exported
             ("{Response:{Message:Export completed.,Code:Success},"
                ++ "ExportedFiles:[f1.rdf,f2.rdf]}")); reflexivity.
  - refine ((fun H => _)
              (handler_sweeps url_ok marshal0 params0
                 (fun _ => (refused, None)) mainCtx 7 scenario5 eq_refl)).
    destruct H as (_ & _ & _ & H & _).
    apply (H client0 (ErrorString (rejected (Resp refused)))); reflexivity.
Defined.

(** C10 as stated fails: with the cleanup enabled, a POST request whose
    export the remote end refuses is answered with the error and no sweep
    runs; so is one for which the client cannot be built. *)
Lemma refused_request_not_swept :
  let refusing :=
    snd (apiExportHandler url_ok marshal0 params0
                          (fun _ => (refused, None)) mainCtx 0 "POST"
                          scenario5) in
  let clientless :=
    snd (apiExportHandler url_bad marshal0 params_bad
                          (fun _ => (exported, None)) mainCtx 0 "POST"
                          scenario5) in
  cleanup (tmp params0) = true
  /\ responses 0 (trace refusing)
     = [(200, rejected (Resp refused) ++ newline)]
  /\ sweeps (trace refusing) = 0
  /\ cleanup (tmp params_bad) = true
  /\ responses 0 (trace clientless)
     = [(200, Error missing_scheme ++ newline)]
  /\ sweeps (trace clientless) = 0.
Proof. vm_compute. repeat split; reflexivity. Qed.

End TriggerFacts.

(** ** The process: concurrency of the two trigger paths *)

Module ProcessFacts.

Import Go export main Terms Scenario SweepFacts TriggerFacts.

Lemma silent_ret {A : Type} (a : A) : silent (ret a).
Proof.
  intros w. exists []. cbn. rewrite app_nil_r. auto.
Qed.

Lemma silent_klog (l : Log) : silent (emit (Klog l)).
Proof. intros w. exists [Klog l]. cbn. auto. Qed.

Lemma silent_write (id status : nat) (body : string) :
  silent (emit (HttpWrite id status body)).
Proof. intros w. exists [HttpWrite id status body]. cbn. auto. Qed.

Lemma silent_bind {A B : Type} (m : M A) (k : A -> M B) :
  silent m -> (forall a, silent (k a)) -> silent (bind m k).
Proof.
  intros Hm Hk w. unfold bind.
  destruct (Hm w) as (tr1 & Ht1 & Hi1 & Hr1).
  destruct (m w) as [a w1]. cbn [snd] in Ht1.
  destruct (Hk a w1) as (tr2 & Ht2 & Hi2 & Hr2).
  exists (tr1 ++ tr2)%list. rewrite Ht2, Ht1, <- app_assoc.
  split; [reflexivity|].
  split; intros f; [rewrite issued_app|rewrite returned_app];
    rewrite ?Hi1, ?Hi2, ?Hr1, ?Hr2; reflexivity.
Qed.

Lemma silent_cleanup (p : dgraphParams) (ctx : Context) :
  silent (cleanupIfEnabled p ctx).
Proof.
  intros w. destruct (cleanupIfEnabled_any p ctx w) as (tr & Ht & Hi & Hr & _).
  exists tr. auto.
Qed.

Lemma silent_loop_enter (url_Parse : string -> option error)
      (p : dgraphParams) : silent (exportLoop_enter url_Parse p).
Proof.
  unfold exportLoop_enter. apply silent_bind; [apply silent_klog|].
  intros _. destruct (newClient url_Parse p).
  - apply silent_ret.
  - apply silent_bind; [apply silent_klog|]. intros _. apply silent_ret.
Qed.

Lemma silent_loop_resume (p : dgraphParams) (ctx : Context)
      (res : ExportOutput + error) : silent (exportLoop_resume p ctx res).
Proof.
  unfold exportLoop_resume. destruct res.
  - apply silent_bind; [apply silent_klog|]. intros _. apply silent_cleanup.
  - apply silent_klog.
Qed.

Lemma silent_handler_enter (url_Parse : string -> option error)
      (p : dgraphParams) (ctx : Context) (id : nat) (method : string) :
  silent (apiExportHandler_enter url_Parse p ctx id method).
Proof.
  unfold apiExportHandler_enter. destruct (String.eqb method "POST").
  - destruct (newClient url_Parse p).
    + apply silent_ret.
    + apply silent_bind; [apply silent_write|]. intros _. apply silent_ret.
  - apply silent_bind; [apply silent_write|]. intros _.
    apply silent_bind; [apply silent_cleanup|]. intros _. apply silent_ret.
Qed.

Lemma silent_handler_resume (json_Marshal : ExportOutput -> string + error)
      (p : dgraphParams) (ctx : Context) (id : nat)
      (res : ExportOutput + error) :
  silent (apiExportHandler_resume json_Marshal p ctx id res).
Proof.
  unfold apiExportHandler_resume. destruct res as [out|err].
  - destruct (json_Marshal out).
    + apply silent_bind; [apply silent_write|]. intros _. apply silent_cleanup.
    + apply silent_write.
  - apply silent_write.
Qed.

(** Counting through a step that adds the effects [l] and then runs a
    silent computation. *)
Lemma silent_after {A : Type} (m : M A) (w : World) (l : list Effect) :
  silent m ->
  forall f,
    issued f (trace (snd (m (logged w l))))
    = issued f (trace w) + issued f l
    /\ returned f (trace (snd (m (logged w l))))
       = returned f (trace w) + returned f l.
Proof.
  intros Hm f. destruct (Hm (logged w l)) as (tr & Ht & Hi & Hr).
  rewrite Ht. cbn [logged trace].
  rewrite !issued_app, !returned_app, Hi, Hr. lia.
Qed.

Lemma silent_counts {A : Type} (m : M A) (w : World) :
  silent m ->
  forall f,
    issued f (trace (snd (m w))) = issued f (trace w)
    /\ returned f (trace (snd (m w))) = returned f (trace w).
Proof.
  intros Hm f. destruct (Hm w) as (tr & Ht & Hi & Hr).
  rewrite Ht, issued_app, returned_app, Hi, Hr. lia.
Qed.

Lemma without_length (id : nat) (c : Client) (l : list (nat * Client)) :
  NoDup (map fst l) -> lookup id l = Some c ->
  length l = S (length (without id l)).
Proof.
  unfold lookup, without.
  induction l as [|h l IH]; intros Hnd Hl; [discriminate|].
  cbn in Hnd. inversion Hnd as [|? ? Hnot Hnd']; subst.
  cbn in Hl |- *. destruct (Nat.eqb_spec (fst h) id) as [Heq|Hne]; cbn.
  - f_equal. rewrite (proj2 (filter_ext_in_iff _ (fun _ => true) l)).
    + clear. induction l as [|x l IH]; cbn; congruence.
    + intros x Hx. destruct (Nat.eqb_spec (fst x) id) as [Hx'|]; [|reflexivity].
      exfalso. apply Hnot. rewrite Heq, <- Hx'. apply in_map. exact Hx.
  - f_equal. apply IH; assumption.
Qed.

Lemma without_keeps (id : nat) (l : list (nat * Client)) (bound : nat) :
  NoDup (map fst l) -> Forall (fun h => fst h < bound) l ->
  NoDup (map fst (without id l))
  /\ Forall (fun h => fst h < bound) (without id l).
Proof.
  unfold without. intros Hnd Hb. split.
  - induction l as [|h l IH]; [constructor|].
    cbn in Hnd. inversion Hnd as [|? ? Hnot Hnd']; subst.
    inversion Hb; subst. cbn.
    destruct (negb (fst h =? id)); [|auto].
    cbn. constructor; [|auto].
    intros Hin. apply Hnot. apply in_map_iff in Hin.
    destruct Hin as (x & Hx & Hin). apply filter_In in Hin.
    rewrite <- Hx. apply in_map. tauto.
  - apply Forall_forall. intros x Hx. apply filter_In in Hx.
    rewrite Forall_forall in Hb. apply Hb. tauto.
Qed.

Section Reachable.

Variable url_Parse : string -> option error.
Variable json_Marshal : ExportOutput -> string + error.
Variable p : dgraphParams.

Lemma init_consistent (f : FS) : consistent (init f).
Proof.
  unfold consistent. cbn. repeat split; constructor.
Qed.

(** Every step keeps the trace and the goroutines in agreement. *)
Lemma step_consistent (s s' : Proc) (e : Event) :
  consistent s -> step url_Parse json_Marshal p s e = Some s' -> consistent s'.
Proof.
  intros (Ht & Hd & Hnd & Hb). unfold step.
  destruct (alive s); cbn [negb]; [|discriminate].
  destruct e as [| |identity| |[|]|method|[|id] reply|].
  - (* StartedLeading *)
    destruct (loop s) eqn:Hl; try discriminate.
    destruct (leaderDone s); [discriminate|].
    pose proof (silent_counts _ (world s) (silent_loop_enter url_Parse p))
      as Hc.
    destruct (exportLoop_enter url_Parse p (world s)) as [c w].
    cbn [snd] in Hc. cbn [busy] in Ht.
    destruct c; intros H; injection H as <-; unfold consistent;
      cbn [world loop inflight nextReq busy];
      rewrite (proj1 (Hc isTimer)), (proj2 (Hc isTimer)),
        (proj1 (Hc isOnDemand)), (proj2 (Hc isOnDemand)); auto.
  - (* StoppedLeading *)
    destruct (leaderDone s); [discriminate|].
    intros H; injection H as <-. unfold consistent.
    cbn [world loop inflight nextReq trace snd emit].
    rewrite !issued_app, !returned_app. cbn. repeat split; auto; lia.
  - (* NewLeader *)
    intros H; injection H as <-. unfold consistent.
    cbn [world loop inflight nextReq trace snd emit].
    rewrite !issued_app, !returned_app. cbn. repeat split; auto; lia.
  - (* PeriodElapsed *)
    destruct (loop s) eqn:Hl; intros H; injection H as <-;
      unfold consistent; cbn [world loop inflight nextReq];
      rewrite ?Hl; auto.
  - (* Select CaseTick *)
    destruct (loop s) eqn:Hl; try discriminate.
    destruct (tickC s); [|discriminate].
    intros H; injection H as <-. unfold consistent.
    cbn [world loop inflight nextReq busy]. cbn [busy] in Ht.
    steps. rewrite !issued_app, !returned_app. cbn.
    repeat split; auto; lia.
  - (* Select CaseDone *)
    destruct (loop s) eqn:Hl; try discriminate.
    destruct (leaderDone s); [|discriminate].
    intros H; injection H as <-. unfold consistent.
    cbn [world loop inflight nextReq busy]. cbn [busy] in Ht. auto.
  - (* Request *)
    pose proof (silent_counts _ (world s)
                  (silent_handler_enter url_Parse p mainCtx (nextReq s)
                                        method)) as Hc.
    destruct (apiExportHandler_enter url_Parse p mainCtx (nextReq s) method
                                     (world s)) as [c w].
    cbn [snd] in Hc.
    destruct c as [c|]; intros H; injection H as <-; unfold consistent;
      cbn [world loop inflight nextReq].
    + steps. rewrite !issued_app, !returned_app.
      rewrite (proj1 (Hc isTimer)), (proj2 (Hc isTimer)),
        (proj1 (Hc isOnDemand)), (proj2 (Hc isOnDemand)).
      rewrite length_app, map_app. cbn.
      split; [lia|split; [lia|split]].
      * apply NoDup_app; [exact Hnd|repeat constructor; intros []|].
        intros n Hin [<-|[]]. apply in_map_iff in Hin.
        destruct Hin as (h & Hh & Hin). rewrite Forall_forall in Hb.
        specialize (Hb h Hin). lia.
      * apply Forall_app. split; [|repeat constructor].
        eapply Forall_impl; [|exact Hb]. cbn. intros; lia.
    + rewrite (proj1 (Hc isTimer)), (proj2 (Hc isTimer)),
        (proj1 (Hc isOnDemand)), (proj2 (Hc isOnDemand)).
      repeat split; auto.
      eapply Forall_impl; [|exact Hb]. cbn. intros; lia.
  - (* Returns Timer *)
    destruct (loop s) eqn:Hl; try discriminate.
    intros H; injection H as <-. unfold consistent.
    cbn [world loop inflight nextReq busy]. cbn [busy] in Ht.
    unfold bind. cbn [emit].
    pose proof (silent_after _ (world s) [MutateDone Timer]
                  (silent_loop_resume p leaderCtx (Export_return reply)))
      as Hc.
    unfold logged in Hc.
    rewrite (proj1 (Hc isTimer)), (proj2 (Hc isTimer)),
      (proj1 (Hc isOnDemand)), (proj2 (Hc isOnDemand)).
    cbn. repeat split; auto; lia.
  - (* Returns (OnDemand id) *)
    destruct (lookup id (inflight s)) as [c|] eqn:Hl; [|discriminate].
    intros H; injection H as <-. unfold consistent.
    cbn [world loop inflight nextReq].
    unfold bind. cbn [emit].
    pose proof (silent_after _ (world s) [MutateDone (OnDemand id)]
                  (silent_handler_resume json_Marshal p mainCtx id
                                         (Export_return reply))) as Hc.
    unfold logged in Hc.
    rewrite (proj1 (Hc isTimer)), (proj2 (Hc isTimer)),
      (proj1 (Hc isOnDemand)), (proj2 (Hc isOnDemand)).
    pose proof (without_length id c (inflight s) Hnd Hl) as Hlen.
    destruct (without_keeps id (inflight s) (nextReq s) Hnd Hb) as [Hnd' Hb'].
    cbn. repeat split; auto; lia.
  - (* Exit *)
    destruct (leaderDone s); [|discriminate].
    intros H; injection H as <-. unfold consistent.
    cbn [world loop inflight nextReq]. auto.
Qed.

Lemma run_consistent (evs : list Event) :
  forall s s', consistent s ->
               run url_Parse json_Marshal p s evs = Some s' -> consistent s'.
Proof.
  induction evs as [|e evs IH]; intros s s' Hs Hrun; cbn in Hrun.
  - injection Hrun as <-. exact Hs.
  - destruct (step url_Parse json_Marshal p s e) as [s1|] eqn:Hstep;
      [|discriminate].
    apply (IH s1); [|exact Hrun].
    apply (step_consistent s s1 e); assumption.
Qed.

End Reachable.

Lemma issued_anyone (tr : list Effect) :
  issued anyone tr = issued isTimer tr + issued isOnDemand tr.
Proof.
  unfold issued. induction tr as [|e tr IH]; [reflexivity|].
  destruct e as [| | |[|id] call| |]; cbn; rewrite ?IH; lia.
Qed.

Lemma returned_anyone (tr : list Effect) :
  returned anyone tr = returned isTimer tr + returned isOnDemand tr.
Proof.
  unfold returned. induction tr as [|e tr IH]; [reflexivity|].
  destruct e as [| | | |[|id]|]; cbn; rewrite ?IH; lia.
Qed.

(** C1, as the code has it.  After every sequence of events at most one
    export call of the timer loop is in flight, and it is when the loop
    stands in its call of Export; the handlers are not serialised with the
    loop or with each other: every handler that has reached its call of
    Export has a call of its own in flight, and the calls in flight are
    those of the loop and of the handlers together. *)
Theorem timer_calls_exclusive
        (url_Parse : string -> option error)
        (json_Marshal : ExportOutput -> string + error)
        (p : dgraphParams) (f : FS) (evs : list Event) (s : Proc)
        (Hrun : run url_Parse json_Marshal p (init f) evs = Some s) :
  active isTimer (trace (world s)) <= 1
  /\ active isTimer (trace (world s)) = busy (loop s)
  /\ active isOnDemand (trace (world s)) = length (inflight s)
  /\ active anyone (trace (world s))
     = active isTimer (trace (world s)) + active isOnDemand (trace (world s)).
Proof.
  destruct (run_consistent url_Parse json_Marshal p evs (init f) s
              (init_consistent f) Hrun) as (Ht & Hd & _ & _).
  unfold active. rewrite issued_anyone, returned_anyone, Ht, Hd.
  destruct (loop s); cbn [busy]; lia.
Qed.

Lemma timer_calls_exclusive_witness :
  active isTimer
    (trace (world (exporting))) <= 1
  /\ active anyone (trace (world exporting)) = 1.
Proof.
  refine ((fun H => _)
            (timer_calls_exclusive url_ok marshal0 params0 (fs scenario5)
               [StartedLeading; PeriodElapsed; Select CaseTick] exporting
               eq_refl)).
  destruct H as (H1 & H2 & H3 & H4). split; [exact H1|].
  rewrite H4, H2, H3. reflexivity.
Defined.

(** C1 as stated fails: the loop takes a tick and, while its export is in
    flight, a POST request is served; two export calls are then in
    flight. *)
Lemma two_exports_in_flight :
  option_map (fun s => active anyone (trace (world s)))
             (run url_ok marshal0 params0 (init (fs scenario5))
                  [StartedLeading; PeriodElapsed; Select CaseTick;
                   Request "POST"])
  = Some 2.
Proof. vm_compute. reflexivity. Qed.

(** C2, as the code has it.  A POST request served in any state of the
    process, whatever calls are in flight, is not refused and not queued:
    once its client is built its handler issues an export call of its own
    at once, writes no response before that call returns, and joins the
    handlers in flight; the loop is not touched. *)
Theorem request_starts_its_own_export
        (url_Parse : string -> option error)
        (json_Marshal : ExportOutput -> string + error)
        (p : dgraphParams) (s : Proc) (c : Client)
        (Halive : alive s = true)
        (Hclient : newClient url_Parse p = inl c) :
  exists s',
    step url_Parse json_Marshal p s (Request "POST") = Some s'
    /\ world s'
       = logged (world s) [Mutate (OnDemand (nextReq s))
                                  (Export_call c mainCtx)]
    /\ inflight s' = (inflight s ++ [(nextReq s, c)])%list
    /\ loop s' = loop s
    /\ issued anyone (trace (world s')) = S (issued anyone (trace (world s)))
    /\ returned anyone (trace (world s')) = returned anyone (trace (world s))
    /\ responses (nextReq s) (trace (world s'))
       = responses (nextReq s) (trace (world s)).
Proof.
  unfold step. rewrite Halive. cbn [negb].
  unfold apiExportHandler_enter. rewrite String.eqb_refl, Hclient.
  unfold ret. eexists. split; [reflexivity|].
  cbn [world inflight loop emit snd logged trace].
  rewrite issued_app, returned_app, responses_app. cbn.
  rewrite app_nil_r. repeat split; lia.
Qed.

Lemma request_starts_its_own_export_witness :
  active anyone (trace (world exporting)) = 1
  /\ exists s',
      step url_ok marshal0 params0 exporting (Request "POST") = Some s'
      /\ inflight s' = [(0, client0)]
      /\ loop s' = InExport client0.
Proof.
  split; [reflexivity|].
  destruct (request_starts_its_own_export url_ok marshal0 params0 exporting
              client0 eq_refl eq_refl) as (s' & H1 & _ & H3 & H4 & _).
  exists s'. auto.
Defined.

(** C2 as stated fails: a POST request served while the timer's export is
    in flight gets no response at that point, busy or other, and starts a
    second export call. *)
Lemma request_while_exporting_not_refused :
  run url_ok marshal0 params0 (init (fs scenario5))
      [StartedLeading; PeriodElapsed; Select CaseTick] = Some exporting
  /\ active anyone (trace (world exporting)) = 1
  /\ option_map (fun s => (active anyone (trace (world s)),
                           responses 0 (trace (world s)),
                           map fst (inflight s)))
                (step url_ok marshal0 params0 exporting (Request "POST"))
     = Some (2, [], [0]).
Proof. vm_compute. repeat split; reflexivity. Qed.

Section Ticks.

Variable url_Parse : string -> option error.
Variable json_Marshal : ExportOutput -> string + error.
Variable p : dgraphParams.

(** Once the loop has returned no step starts it again, and no step
    issues a call of the timer. *)
Lemma step_returned (s s' : Proc) (e : Event) :
  loop s = Returned ->
  step url_Parse json_Marshal p s e = Some s' ->
  loop s' = Returned
  /\ issued isTimer (trace (world s')) = issued isTimer (trace (world s)).
Proof.
  intros Hl. unfold step. rewrite Hl.
  destruct (alive s); cbn [negb]; [|discriminate].
  destruct e as [| |identity| |[|]|method|[|id] reply|]; try discriminate.
  - destruct (leaderDone s); [discriminate|].
    intros H; injection H as <-. cbn [loop world emit snd trace].
    rewrite issued_app. cbn. split; [reflexivity|lia].
  - intros H; injection H as <-. cbn [loop world emit snd trace].
    rewrite issued_app. cbn. split; [reflexivity|lia].
  - intros H; injection H as <-. cbn [loop world]. auto.
  - pose proof (silent_counts _ (world s)
                  (silent_handler_enter url_Parse p mainCtx (nextReq s)
                                        method) isTimer) as [Hc _].
    destruct (apiExportHandler_enter url_Parse p mainCtx (nextReq s) method
                                     (world s)) as [c w].
    cbn [snd] in Hc.
    destruct c as [c|]; intros H; injection H as <-;
      cbn [loop world emit snd trace]; rewrite ?issued_app, Hc; cbn;
      split; auto; lia.
  - destruct (lookup id (inflight s)); [|discriminate].
    intros H; injection H as <-. cbn [loop world].
    unfold bind. cbn [emit].
    pose proof (silent_after _ (world s) [MutateDone (OnDemand id)]
                  (silent_handler_resume json_Marshal p mainCtx id
                                         (Export_return reply)) isTimer)
      as [Hc _].
    unfold logged in Hc. rewrite Hc. cbn. split; [reflexivity|lia].
  - destruct (leaderDone s); [|discriminate].
    intros H; injection H as <-. cbn [loop world]. auto.
Qed.

Lemma run_returned (evs : list Event) :
  forall s s', loop s = Returned ->
               run url_Parse json_Marshal p s evs = Some s' ->
               loop s' = Returned
               /\ issued isTimer (trace (world s'))
                  = issued isTimer (trace (world s)).
Proof.
  induction evs as [|e evs IH]; intros s s' Hl Hrun; cbn in Hrun.
  - injection Hrun as <-. auto.
  - destruct (step url_Parse json_Marshal p s e) as [s1|] eqn:Hstep;
      [|discriminate].
    destruct (step_returned s s1 e Hl Hstep) as [Hl1 Hi1].
    destruct (IH s1 s' Hl1 Hrun) as [Hl' Hi']. split; [exact Hl'|].
    rewrite Hi', Hi1. reflexivity.
Qed.

(** C9, as the code has it.  While the export loop does not run, before
    the election has started it or after it has returned on its cancelled
    context, a tick starts no invocation and is never made up: before the
    start there is no ticker and the loop begins with an empty channel,
    after the return nothing issues a timer call any more.  While the
    process leads and the loop waits in its select, a tick is taken by the
    select, which can then do nothing else, and starts exactly one
    invocation.  When the context is cancelled and a tick is ready, the
    select can proceed either way. *)
Theorem ticks_by_leadership (s : Proc) (Halive : alive s = true) :
  let next := step url_Parse json_Marshal p in
  (loop s = NotStarted ->
     next s PeriodElapsed = Some s
     /\ next s (Select CaseTick) = None
     /\ forall s1, next s StartedLeading = Some s1 -> alive s1 = true ->
                   tickC s1 = false /\ next s1 (Select CaseTick) = None)
  /\ (loop s = Returned ->
        next s (Select CaseTick) = None
        /\ forall evs s', run url_Parse json_Marshal p s evs = Some s' ->
                          issued isTimer (trace (world s'))
                          = issued isTimer (trace (world s)))
  /\ (forall c, loop s = AtSelect c -> leaderDone s = false ->
        exists s1 s2,
          next s PeriodElapsed = Some s1
          /\ next s1 (Select CaseDone) = None
          /\ next s1 (Select CaseTick) = Some s2
          /\ loop s2 = InExport c
          /\ world s2
             = logged (world s)
                      [Klog (LogInfo "make export export request");
                       Mutate Timer (Export_call c leaderCtx)]
          /\ issued isTimer (trace (world s2))
             = S (issued isTimer (trace (world s)))
          /\ next s2 (Select CaseTick) = None)
  /\ (forall c, loop s = AtSelect c -> leaderDone s = true ->
        tickC s = true ->
        (exists s1, next s (Select CaseDone) = Some s1 /\ loop s1 = Returned)
        /\ (exists s2, next s (Select CaseTick) = Some s2
                       /\ loop s2 = InExport c)).
Proof.
  cbv zeta. unfold step. rewrite Halive. cbn [negb].
  split; [|split; [|split]].
  - intros Hl. rewrite Hl. split; [reflexivity|split; [reflexivity|]].
    intros s1.
    destruct (leaderDone s); [discriminate|].
    destruct (exportLoop_enter url_Parse p (world s)) as [[c|] w];
      intros H; injection H as <-; cbn [alive tickC loop]; intros Ha;
      [|discriminate].
    split; reflexivity.
  - intros Hl. rewrite Hl. split; [reflexivity|].
    intros evs s' Hrun. apply (run_returned evs s s' Hl Hrun).
  - intros c Hl Hd. rewrite Hl, Hd.
    eexists. eexists. split; [reflexivity|].
    cbn [alive loop leaderDone tickC negb world].
    split; [reflexivity|split; [reflexivity|]].
    split; [reflexivity|]. steps. rewrite <- !app_assoc.
    split; [reflexivity|]. cbn [world trace]. rewrite issued_app. cbn.
    split; [lia|reflexivity].
  - intros c Hl Hd Htick. rewrite Hl, Hd, Htick.
    split; eexists; split; reflexivity.
Qed.

End Ticks.

Lemma ticks_by_leadership_witness :
  alive (init locked) = true
  /\ step url_ok marshal0 params0 (init locked) PeriodElapsed
     = Some (init locked).
Proof.
  split; [reflexivity|].
  refine ((fun H => _)
            (ticks_by_leadership url_ok marshal0 params0 (init locked)
                                 eq_refl)).
  destruct H as (H & _). apply H. reflexivity.
Defined.

(** C9 as stated fails: the process led, then the election ended and
    cancelled the loop's context, then a period elapsed; the process does
    not lead, yet the loop's select may take the tick, and an invocation
    is started. *)
Lemma tick_taken_after_leadership_lost :
  let observe :=
    option_map (fun s => (leading s, issued isTimer (trace (world s)))) in
  let evs := [StartedLeading; StoppedLeading; PeriodElapsed] in
  observe (run url_ok marshal0 params0 (init (fs scenario5)) evs)
  = Some (false, 0)
  /\ observe (run url_ok marshal0 params0 (init (fs scenario5))
                  (evs ++ [Select CaseTick]))
     = Some (false, 1).
Proof. vm_compute. split; reflexivity. Qed.

End ProcessFacts.

(** ** More on the export client *)

Module ExportMore.

Import Go export main MoreTerms.

Lemma append_each (l acc : list string) :
  fold_left (fun files file => (files ++ [file])%list) l acc = (acc ++ l)%list.
Proof.
  revert acc. induction l as [|x l IH]; intros acc; cbn.
  - rewrite app_nil_r. reflexivity.
  - rewrite IH, <- app_assoc. reflexivity.
Qed.

(** X1.  [GetFiles] returns the exported files as they are: all of them,
    in their order. *)
Theorem GetFiles_all (resp : ExportOutput) :
  GetFiles resp = ExportedFiles resp.
Proof. unfold GetFiles. apply append_each. Qed.

Lemma known_keeps (o : Option) (c : Client) :
  known o ->
  cli (o c) = cli c
  /\ Format (input (o c)) = Format (input c)
  /\ Destination (input (o c)) = Destination (input c)
  /\ SessionToken (input (o c)) = SessionToken (input c)
  /\ Namespace (input (o c)) = Namespace (input c).
Proof.
  intros [[v ->]|[[v ->]|[v ->]]]; cbn; auto.
Qed.

Lemma options_keep (opts : list Option) :
  Forall known opts ->
  forall c,
    let c' := fold_left (fun c opt => opt c) opts c in
    cli c' = cli c
    /\ Format (input c') = Format (input c)
    /\ Destination (input c') = Destination (input c)
    /\ SessionToken (input c') = SessionToken (input c)
    /\ Namespace (input c') = Namespace (input c).
Proof.
  induction 1 as [|o opts Ho _ IH]; intros c; cbn; [auto|].
  destruct (IH (o c)) as (H1 & H2 & H3 & H4 & H5).
  destruct (known_keeps o c Ho) as (K1 & K2 & K3 & K4 & K5).
  cbv zeta in *. rewrite H1, H2, H3, H4, H5. auto.
Qed.

(** X2.  Whatever options of the package it is given, [NewClient] fails
    with the error of parsing the endpoint and builds nothing, or builds a
    client for that endpoint whose input has the format rdf, the given
    destination, no session token and namespace 0: no option changes
    these. *)
Theorem NewClient_fixed_fields (url_Parse : string -> option error)
        (endpoint dest : string) (opts : list Option)
        (Hopts : Forall known opts) :
  match url_Parse endpoint with
  | Some err => NewClient url_Parse endpoint dest opts = inr err
  | None =>
      exists c,
        NewClient url_Parse endpoint dest opts = inl c
        /\ cli c = endpoint
        /\ Format (input c) = "rdf"
        /\ Destination (input c) = dest
        /\ SessionToken (input c) = EmptyString
        /\ Namespace (input c) = 0%N
  end.
Proof.
  unfold NewClient. destruct (url_Parse endpoint) as [err|]; [reflexivity|].
  eexists. split; [reflexivity|].
  match goal with
  | |- context [fold_left _ opts ?c0] =>
      destruct (options_keep opts Hopts c0) as (H1 & H2 & H3 & H4 & H5)
  end.
  cbv zeta in *. rewrite H1, H2, H3, H4, H5. cbn. auto.
Qed.

Lemma NewClient_fixed_fields_witness :
  exists c,
    NewClient Scenario.url_ok "http://localhost:8080/admin" "s3://b"
              [WithAnonymous true; WithAccessKey "k"] = inl c
    /\ Format (input c) = "rdf" /\ Destination (input c) = "s3://b".
Proof.
  refine ((fun H => _)
            (NewClient_fixed_fields Scenario.url_ok
               "http://localhost:8080/admin" "s3://b"
               [WithAnonymous true; WithAccessKey "k"] _)).
  - cbn in H. destruct H as (c & H0 & _ & H2 & H3 & _). exists c. auto.
  - constructor; [right; right; exists true; reflexivity|].
    constructor; [left; exists "k"; reflexivity|constructor].
Defined.

(** The client both trigger paths build. *)
Lemma newClient_configured (url_Parse : string -> option error)
      (p : dgraphParams) (c : Client) :
  newClient url_Parse p = inl c ->
  c = {| cli := endpoint p; input := configured p |}.
Proof.
  unfold newClient, NewClient. destruct (url_Parse (endpoint p)); [discriminate|].
  intros H. injection H as <-. reflexivity.
Qed.

End ExportMore.

(** ** More on the matcher *)

Module MatchMore.

Import Go filepath MoreTerms.

Lemma special_false (c : ascii) :
  special c = false ->
  Ascii.eqb c "*"%char = false /\ Ascii.eqb c "?"%char = false
  /\ Ascii.eqb c "["%char = false /\ Ascii.eqb c backslash = false.
Proof.
  unfold special. intros H.
  repeat (apply orb_false_iff in H; destruct H as [H ?]). auto.
Qed.

Lemma literal_cons (c : ascii) (rest : string) :
  literal (String c rest) = true -> special c = false /\ literal rest = true.
Proof.
  cbn. intros H. apply andb_true_iff in H. destruct H as [H1 H2].
  apply negb_true_iff in H1. auto.
Qed.

Lemma take_app (a b : string) : take (String.length a) (a ++ b) = a.
Proof. induction a as [|c a IH]; cbn; [destruct b|rewrite IH]; reflexivity. Qed.

Lemma drop_app (a b : string) : drop (String.length a) (a ++ b) = b.
Proof. induction a as [|c a IH]; cbn; [reflexivity|exact IH]. Qed.

(** The scan of a chunk runs over literal bytes up to a star or the end. *)
Lemma scan_end_literal (a : string) :
  literal a = true ->
  forall (tail : string) (i : nat),
    tail = EmptyString \/ starts "*"%char tail = true ->
    scan_end (a ++ tail) false false i = i + String.length a.
Proof.
  induction a as [|c a IH]; intros Hlit tail i Htail.
  - cbn [append String.length]. rewrite Nat.add_0_r.
    destruct Htail as [->|Hs]; [reflexivity|].
    destruct tail as [|d tail]; [discriminate|]. cbn in Hs.
    apply Ascii.eqb_eq in Hs. subst d. reflexivity.
  - apply literal_cons in Hlit. destruct Hlit as [Hc Hlit].
    destruct (special_false c Hc) as (H1 & H2 & H3 & H4).
    cbn [append scan_end String.length]. rewrite H4, H3, H1.
    destruct (Ascii.eqb c "]"%char);
      rewrite (IH Hlit tail (S i) Htail); lia.
Qed.

Lemma scanChunk_literal (c : ascii) (a tail : string) :
  literal (String c a) = true ->
  tail = EmptyString \/ starts "*"%char tail = true ->
  scanChunk (String c a ++ tail) = (false, String c a, tail).
Proof.
  intros Hlit Htail. unfold scanChunk.
  pose proof (literal_cons c a Hlit) as [Hc _].
  destruct (special_false c Hc) as (H1 & _).
  cbn [append strip_stars]. rewrite H1.
  change (String c (a ++ tail)) with (String c a ++ tail).
  rewrite (scan_end_literal (String c a) Hlit tail 0 Htail).
  cbn [Nat.add]. rewrite take_app, drop_app. reflexivity.
Qed.

(** A literal chunk matches the beginning of a name byte by byte. *)
Lemma matchChunk_loop_literal (chunk : string) :
  literal chunk = true ->
  forall (fuel : nat) (s : string) (failed : bool),
    String.length chunk < fuel ->
    matchChunk_loop fuel chunk s failed
    = if failed then (EmptyString, false, None)
      else match strip_prefix chunk s with
           | Some rest => (rest, true, None)
           | None => (EmptyString, false, None)
           end.
Proof.
  induction chunk as [|c chunk IH]; intros Hlit fuel s failed Hfuel.
  - destruct fuel; [cbn in Hfuel; lia|]. cbn. destruct failed; reflexivity.
  - destruct fuel; [cbn in Hfuel; lia|].
    apply literal_cons in Hlit. destruct Hlit as [Hc Hlit].
    destruct (special_false c Hc) as (H1 & H2 & H3 & H4).
    cbn [matchChunk_loop]. rewrite H3, H2, H4.
    cbn [String.length] in Hfuel.
    destruct s as [|d s].
    + cbn. rewrite orb_true_r.
      rewrite (IH Hlit fuel EmptyString true) by lia. destruct failed; reflexivity.
    + cbn [String.length Nat.eqb]. rewrite orb_false_r.
      destruct failed.
      * rewrite (IH Hlit fuel _ true) by lia. reflexivity.
      * cbn [drop starts strip_prefix].
        rewrite (IH Hlit fuel s _) by lia.
        destruct (Ascii.eqb d c); reflexivity.
Qed.

Lemma matchChunk_literal (chunk s : string) :
  literal chunk = true ->
  matchChunk chunk s
  = match strip_prefix chunk s with
    | Some rest => (rest, true, None)
    | None => (EmptyString, false, None)
    end.
Proof.
  intros Hlit. unfold matchChunk.
  rewrite (matchChunk_loop_literal chunk Hlit) by lia. reflexivity.
Qed.

Lemma strip_prefix_all (pre name : string) :
  match strip_prefix pre name with
  | Some rest => (String.length rest =? 0) = String.eqb pre name
  | None => String.eqb pre name = false
  end.
Proof.
  revert name. induction pre as [|c pre IH]; intros [|d name]; cbn; auto.
  rewrite (Ascii.eqb_sym c d).
  destruct (Ascii.eqb d c); [apply IH|reflexivity].
Qed.

Lemma append_empty (a : string) : a ++ EmptyString = a.
Proof. induction a as [|c a IH]; cbn; [|rewrite IH]; reflexivity. Qed.

(** One turn of the [Pattern:] loop. *)
Lemma Match_loop_turn (fuel : nat) (pattern name : string) :
  Match_loop (S fuel) pattern name
  = if String.length pattern =? 0 then (String.length name =? 0, None)
    else
      let '(star, chunk, pattern) := scanChunk pattern in
      if star && (String.length chunk =? 0)
      then (negb (contains_sep name), None)
      else
        let last := String.length pattern =? 0 in
        match matchChunk chunk name with
        | (t, ok, err) =>
            if ok && ((String.length t =? 0) || negb last)
            then Match_loop fuel pattern t
            else
              match err with
              | Some e => (false, Some e)
              | None =>
                  if star then
                    match star_loop chunk name last with
                    | Found t => Match_loop fuel pattern t
                    | Bad e => (false, Some e)
                    | Exhausted => (false, None)
                    end
                  else (false, None)
              end
        end.
Proof. reflexivity. Qed.

(** X3.  A pattern without the bytes star, question mark, opening bracket
    and backslash matches exactly the name equal to it, and is never
    rejected as malformed. *)
Theorem Match_literal (pattern name : string)
        (Hlit : literal pattern = true) :
  Match pattern name = (String.eqb pattern name, None).
Proof.
  unfold Match. destruct pattern as [|c a].
  - destruct name; reflexivity.
  - rewrite Match_loop_turn. cbn [String.length Nat.eqb].
    pose proof (scanChunk_literal c a EmptyString Hlit (or_introl eq_refl))
      as Hscan.
    rewrite append_empty in Hscan. rewrite Hscan.
    cbn [andb String.length Nat.eqb negb].
    rewrite (matchChunk_literal (String c a) name Hlit).
    pose proof (strip_prefix_all (String c a) name) as Hall.
    destruct (strip_prefix (String c a) name) as [rest|].
    + rewrite orb_false_r. cbn [andb]. rewrite <- Hall.
      destruct rest; reflexivity.
    + rewrite Hall. reflexivity.
Qed.

Lemma Match_literal_witness :
  Match "keep-2024_01" "keep-2024_01" = (true, None)
  /\ Match "keep-2024_01" "keep-2024_011" = (false, None).
Proof.
  split.
  - exact (Match_literal "keep-2024_01" "keep-2024_01" eq_refl).
  - exact (Match_literal "keep-2024_01" "keep-2024_011" eq_refl).
Defined.

(** X4.  A pattern made of literal bytes and one final star matches
    exactly the names that begin with the literal part and have no
    separator after it. *)
Theorem Match_prefix_star (pre name : string) (Hlit : literal pre = true) :
  Match (pre ++ "*") name
  = (match strip_prefix pre name with
     | Some rest => negb (contains_sep rest)
     | None => false
     end, None).
Proof.
  unfold Match. destruct pre as [|c a].
  - reflexivity.
  - rewrite Match_loop_turn.
    change (String.length (String c a ++ "*") =? 0) with false.
    rewrite (scanChunk_literal c a "*" Hlit (or_intror eq_refl)).
    cbn [andb String.length Nat.eqb negb].
    rewrite (matchChunk_literal (String c a) name Hlit).
    destruct (strip_prefix (String c a) name) as [rest|].
    + rewrite orb_true_r. cbn [andb append String.length].
      rewrite Match_loop_turn. reflexivity.
    + reflexivity.
Qed.

Lemma Match_prefix_star_witness :
  Match "export*" "export123" = (true, None)
  /\ Match "export*" "keep" = (false, None).
Proof.
  split.
  - exact (Match_prefix_star "export" "export123" eq_refl).
  - exact (Match_prefix_star "export" "keep" eq_refl).
Defined.

Lemma Match_loop_error (fuel : nat) :
  forall (pattern name : string) (err : error),
    snd (Match_loop fuel pattern name) = Some err ->
    fst (Match_loop fuel pattern name) = false.
Proof.
  induction fuel as [|fuel IH]; intros pattern name e; [reflexivity|].
  rewrite Match_loop_turn.
  destruct (String.length pattern =? 0); [discriminate|].
  destruct (scanChunk pattern) as [[star chunk] rest].
  destruct (star && (String.length chunk =? 0)); [discriminate|].
  cbv zeta.
  destruct (matchChunk chunk name) as [[t ok] err].
  destruct (ok && ((String.length t =? 0) || negb (String.length rest =? 0)));
    [apply IH|].
  destruct err as [e'|]; [reflexivity|].
  destruct star; [|reflexivity].
  destruct (star_loop chunk name (String.length rest =? 0)) as [t'|e'|].
  - apply IH.
  - reflexivity.
  - reflexivity.
Qed.

(** X5.  [Match] never reports a match together with an error: when it
    returns an error, the pattern being malformed, it reports no match. *)
Theorem Match_error_unmatched (pattern name : string) (err : error)
        (Herr : snd (Match pattern name) = Some err) :
  fst (Match pattern name) = false.
Proof. exact (Match_loop_error _ pattern name err Herr). Qed.

Lemma Match_error_unmatched_witness :
  snd (Match "export[0-9" "export1") = Some ErrBadPattern
  /\ fst (Match "export[0-9" "export1") = false.
Proof.
  split; [reflexivity|].
  exact (Match_error_unmatched "export[0-9" "export1" ErrBadPattern eq_refl).
Defined.

(** A first byte that starts a sequence of several bytes announces at
    least two of them. *)
Lemma first_size (b : N) :
  (240 <=? utf8.first b)%N = false ->
  2 <= N.to_nat (N.land (utf8.first b) 7).
Proof.
  unfold utf8.first.
  repeat match goal with
         | |- context [if ?t then _ else _] => destruct t
         end;
    cbn; intros H; first [discriminate H | vm_compute; lia].
Qed.

(** X6.  [DecodeRuneInString] of a string that is not empty reads at least
    one byte, at most four, and never more than the string has; a first
    byte below 128 is a rune of its own. *)
Theorem DecodeRune_width (s : string) (Hs : 0 < String.length s) :
  let '(r, n) := utf8.DecodeRuneInString s in
  1 <= n /\ n <= 4 /\ n <= String.length s
  /\ ((utf8.nth_byte s 0 <? 128)%N = true ->
      r = utf8.nth_byte s 0 /\ n = 1).
Proof.
  unfold utf8.DecodeRuneInString.
  destruct (Nat.ltb_spec (String.length s) 1) as [Hlt|_]; [lia|].
  destruct (240 <=? utf8.first (utf8.nth_byte s 0))%N eqn:Has.
  - split; [lia|split; [lia|split; [lia|]]].
    intros H. unfold utf8.first. rewrite H. split; reflexivity.
  - pose proof (first_size _ Has) as Hsz.
    assert (Hmulti : (utf8.nth_byte s 0 <? 128)%N = true -> False).
    { intros H. unfold utf8.first in Has. rewrite H in Has. discriminate. }
    assert (Hend : forall (r : N) (n : nat),
               1 <= n -> n <= 4 -> n <= String.length s ->
               1 <= n /\ n <= 4 /\ n <= String.length s
               /\ ((utf8.nth_byte s 0 <? 128)%N = true ->
                   r = utf8.nth_byte s 0 /\ n = 1)).
    { intros r n H1 H2 H3. split; [lia|split; [lia|split; [lia|]]].
      intros H. destruct (Hmulti H). }
    destruct (Nat.ltb_spec (String.length s)
                (N.to_nat (N.land (utf8.first (utf8.nth_byte s 0)) 7)))
      as [|Hlen]; [apply Hend; lia|].
    destruct (_ || _)%bool; [apply Hend; lia|].
    destruct (Nat.leb_spec
                (N.to_nat (N.land (utf8.first (utf8.nth_byte s 0)) 7)) 2);
      [apply Hend; lia|].
    destruct (_ || _)%bool; [apply Hend; lia|].
    destruct (Nat.leb_spec
                (N.to_nat (N.land (utf8.first (utf8.nth_byte s 0)) 7)) 3);
      [apply Hend; lia|].
    destruct (_ || _)%bool; apply Hend; lia.
Qed.

Lemma DecodeRune_width_witness :
  0 < String.length "export"
  /\ let '(r, n) := utf8.DecodeRuneInString "export" in
     1 <= n /\ n <= 4 /\ n <= String.length "export"
     /\ ((utf8.nth_byte "export" 0 <? 128)%N = true ->
         r = utf8.nth_byte "export" 0 /\ n = 1).
Proof.
  split; [exact (Nat.lt_0_succ 5)|].
  exact (DecodeRune_width "export" (Nat.lt_0_succ 5)).
Defined.

Lemma length_drop (n : nat) (s : string) :
  String.length (drop n s) = String.length s - n.
Proof.
  revert s. induction n as [|n IH]; intros [|c s]; cbn; auto.
Qed.

Lemma take_drop (n : nat) (s : string) : take n s ++ drop n s = s.
Proof.
  revert s. induction n as [|n IH]; intros [|c s]; cbn; auto.
  rewrite IH. reflexivity.
Qed.

Lemma strip_stars_spec (pattern : string) (b : bool) :
  exists k,
    pattern = stars k ++ snd (strip_stars pattern b)
    /\ fst (strip_stars pattern b) = b || (0 <? k)
    /\ starts "*"%char (snd (strip_stars pattern b)) = false.
Proof.
  revert b. induction pattern as [|c rest IH]; intros b.
  - exists 0. cbn. rewrite orb_false_r. auto.
  - cbn [strip_stars]. destruct (Ascii.eqb c "*"%char) eqn:Hc.
    + destruct (IH true) as (k & Hp & Hs & Hn). exists (S k).
      apply Ascii.eqb_eq in Hc. subst c. cbn [stars append].
      rewrite <- Hp. rewrite Hs. cbn. rewrite orb_true_r. auto.
    + exists 0. cbn. rewrite Hc, orb_false_r. auto.
Qed.

Lemma scan_end_ge (s : string) :
  forall (inrange skip : bool) (i : nat), i <= scan_end s inrange skip i.
Proof.
  induction s as [|c s IH]; intros inrange skip i; cbn [scan_end]; [lia|].
  assert (Hnext : forall a b, i <= scan_end s a b (S i)).
  { intros a b. specialize (IH a b (S i)). lia. }
  destruct skip; [apply Hnext|].
  destruct (Ascii.eqb c backslash); [destruct s; [lia|apply Hnext]|].
  destruct (Ascii.eqb c "["%char); [apply Hnext|].
  destruct (Ascii.eqb c "]"%char); [apply Hnext|].
  destruct (Ascii.eqb c "*"%char); [destruct inrange; [apply Hnext|lia]|].
  apply Hnext.
Qed.

Lemma scan_end_first (c : ascii) (s : string) (i : nat) :
  Ascii.eqb c "*"%char = false -> S i <= scan_end (String c s) false false i.
Proof.
  intros Hc. cbn [scan_end]. rewrite Hc.
  destruct (Ascii.eqb c backslash);
    [destruct s; [lia|apply scan_end_ge]|].
  destruct (Ascii.eqb c "["%char); [apply scan_end_ge|].
  destruct (Ascii.eqb c "]"%char); apply scan_end_ge.
Qed.

Lemma length_stars_app (k : nat) (s : string) :
  String.length (stars k ++ s) = k + String.length s.
Proof. induction k as [|k IH]; cbn; [|rewrite IH]; reflexivity. Qed.

(** What [scanChunk] makes of a pattern. *)
Lemma scanChunk_spec (pattern : string) :
  exists k,
    pattern = stars k ++ snd (fst (scanChunk pattern)) ++ snd (scanChunk pattern)
    /\ fst (fst (scanChunk pattern)) = (0 <? k)
    /\ (0 < String.length pattern ->
        String.length (snd (scanChunk pattern)) < String.length pattern).
Proof.
  unfold scanChunk.
  destruct (strip_stars_spec pattern false) as (k & Hp & Hs & Hn).
  destruct (strip_stars pattern false) as [star p'].
  cbn [fst snd] in *. exists k. rewrite take_drop.
  split; [exact Hp|split; [exact Hs|]].
  intros Hlen. rewrite length_drop. rewrite Hp, length_stars_app.
  destruct k as [|k]; [|lia].
  rewrite Hp in Hlen. cbn in Hlen. destruct p' as [|c p']; [cbn in Hlen; lia|].
  cbn in Hn. pose proof (scan_end_first c p' 0 Hn). cbn [String.length]. lia.
Qed.

(** X16.  [scanChunk] loses nothing of the pattern: the pattern is its
    leading stars, then the chunk, then the rest; the star flag tells
    whether there were leading stars, and the rest of a pattern that is
    not empty is shorter than the pattern, so the loop of [Match] takes at
    most as many turns as the pattern has bytes. *)
Theorem scanChunk_splits (pattern : string) :
  let '(star, chunk, rest) := scanChunk pattern in
  exists k,
    pattern = stars k ++ chunk ++ rest
    /\ star = (0 <? k)
    /\ (pattern <> EmptyString ->
        String.length rest < String.length pattern).
Proof.
  destruct (scanChunk_spec pattern) as (k & Hp & Hs & Hl).
  destruct (scanChunk pattern) as [[star chunk] rest]. cbn [fst snd] in *.
  exists k. split; [exact Hp|split; [exact Hs|]].
  intros Hne. apply Hl. destruct pattern; [congruence|cbn; lia].
Qed.

Lemma decode_progress (s : string) :
  0 < String.length s -> 1 <= snd (utf8.DecodeRuneInString s).
Proof.
  intros Hs. unfold utf8.DecodeRuneInString.
  destruct (Nat.ltb_spec (String.length s) 1) as [Hlt|_]; [lia|].
  repeat match goal with
         | |- context [if ?t then _ else _] => destruct t
         end; cbn; lia.
Qed.

(** A character of a class is followed by more of the chunk, and the
    chunk after it is shorter. *)
Lemma getEsc_shorter (chunk nchunk : string) (r : N) :
  getEsc chunk = (r, nchunk, None) ->
  String.length nchunk < String.length chunk.
Proof.
  unfold getEsc.
  destruct ((String.length chunk =? 0) || starts "-"%char chunk
            || starts "]"%char chunk); [discriminate|].
  set (chunk1 := if starts backslash chunk then drop 1 chunk else chunk).
  assert (Hle : String.length chunk1 <= String.length chunk).
  { unfold chunk1. destruct (starts backslash chunk); [|lia].
    rewrite length_drop. lia. }
  destruct (starts backslash chunk && (String.length chunk1 =? 0));
    [discriminate|].
  pose proof (decode_progress chunk1) as Hn.
  destruct (utf8.DecodeRuneInString chunk1) as [r' n]. cbn [snd] in Hn.
  destruct (Nat.eqb_spec (String.length (drop n chunk1)) 0) as [|Hne];
    [discriminate|].
  destruct ((r' =? utf8.RuneError)%N && (n =? 1)); [discriminate|].
  intros H. injection H as _ <-. rewrite length_drop in Hne |- *.
  assert (0 < String.length chunk1) by lia. specialize (Hn H). lia.
Qed.

Lemma starts_length (c : ascii) (s : string) :
  starts c s = true -> 0 < String.length s.
Proof. destruct s; [discriminate|cbn; lia]. Qed.

Lemma ranges_shorter (fuel : nat) :
  forall (chunk chunk' : string) (r : N) (m m' : bool) (nr : nat),
    ranges fuel chunk r m nr = inl (chunk', m') ->
    String.length chunk' < String.length chunk.
Proof.
  induction fuel as [|fuel IH]; intros chunk chunk' r m m' nr; [discriminate|].
  cbn [ranges].
  destruct (starts "]"%char chunk && (0 <? nr)) eqn:Hclose.
  - assert (Hlt : String.length (drop 1 chunk) < String.length chunk).
    { rewrite length_drop. apply andb_true_iff in Hclose.
      destruct Hclose as [Hc _]. apply starts_length in Hc. lia. }
    intros H. injection H as H _. rewrite <- H. exact Hlt.
  - destruct (getEsc chunk) as [[lo chunk1] [e|]] eqn:He; [discriminate|].
    apply getEsc_shorter in He.
    destruct (starts "-"%char chunk1).
    + destruct (getEsc (drop 1 chunk1)) as [[hi chunk2] [e|]] eqn:He2;
        [discriminate|].
      apply getEsc_shorter in He2. rewrite length_drop in He2.
      intros H. apply IH in H. lia.
    + intros H. apply IH in H. lia.
Qed.

Lemma ranges_fuel (k1 : nat) :
  forall (k2 : nat) (chunk : string) (r : N) (m : bool) (nr : nat),
    String.length chunk < k1 -> String.length chunk < k2 ->
    ranges k1 chunk r m nr = ranges k2 chunk r m nr.
Proof.
  induction k1 as [|k1 IH]; intros [|k2] chunk r m nr H1 H2; try lia.
  cbn [ranges].
  destruct (starts "]"%char chunk && (0 <? nr)); [reflexivity|].
  destruct (getEsc chunk) as [[lo chunk1] [e|]] eqn:He; [reflexivity|].
  apply getEsc_shorter in He.
  destruct (starts "-"%char chunk1).
  - destruct (getEsc (drop 1 chunk1)) as [[hi chunk2] [e|]] eqn:He2;
      [reflexivity|].
    apply getEsc_shorter in He2. rewrite length_drop in He2.
    apply IH; lia.
  - apply IH; lia.
Qed.

Lemma matchChunk_loop_fuel (k1 : nat) :
  forall (k2 : nat) (chunk s : string) (failed : bool),
    String.length chunk < k1 -> String.length chunk < k2 ->
    matchChunk_loop k1 chunk s failed = matchChunk_loop k2 chunk s failed.
Proof.
  induction k1 as [|k1 IH]; intros [|k2] chunk s failed H1 H2; try lia.
  destruct chunk as [|c0 chunk']; [reflexivity|].
  cbn [String.length] in H1, H2. cbn [matchChunk_loop].
  destruct (Ascii.eqb c0 "["%char).
  - destruct (if failed || (String.length s =? 0)
              then (0%N, s)
              else let '(r, n) := utf8.DecodeRuneInString s in (r, drop n s))
      as [r s1].
    assert (Hneg : String.length
                     (if starts "^"%char chunk' then drop 1 chunk' else chunk')
                   <= String.length chunk').
    { destruct (starts "^"%char chunk'); [rewrite length_drop|]; lia. }
    destruct (ranges _ _ r false 0) as [[chunk2 matched]|e] eqn:Hr;
      [|reflexivity].
    apply ranges_shorter in Hr. apply IH; lia.
  - destruct (Ascii.eqb c0 "?"%char).
    + destruct (failed || (String.length s =? 0)); [apply IH; lia|].
      destruct (utf8.DecodeRuneInString s). apply IH; lia.
    + destruct (Ascii.eqb c0 backslash).
      * destruct chunk' as [|c chunk'']; [reflexivity|].
        cbn [String.length] in H1, H2.
        destruct (failed || (String.length s =? 0)); apply IH; lia.
      * destruct (failed || (String.length s =? 0)); apply IH; lia.
Qed.

Lemma Match_loop_fuel (k1 : nat) :
  forall (k2 : nat) (pattern name : string),
    String.length pattern < k1 -> String.length pattern < k2 ->
    Match_loop k1 pattern name = Match_loop k2 pattern name.
Proof.
  induction k1 as [|k1 IH]; intros [|k2] pattern name H1 H2; try lia.
  rewrite !Match_loop_turn.
  destruct (Nat.eqb_spec (String.length pattern) 0) as [|Hne];
    [reflexivity|].
  destruct (scanChunk_spec pattern) as (_ & _ & _ & Hl).
  destruct (scanChunk pattern) as [[star chunk] rest]. cbn [snd] in Hl.
  destruct (star && (String.length chunk =? 0)); [reflexivity|].
  cbv zeta.
  destruct (matchChunk chunk name) as [[t ok] err].
  destruct (ok && ((String.length t =? 0) || negb (String.length rest =? 0)));
    [apply IH; lia|].
  destruct err; [reflexivity|].
  destruct star; [|reflexivity].
  destruct (star_loop chunk name (String.length rest =? 0));
    [apply IH; lia|reflexivity|reflexivity].
Qed.

End MatchMore.

(** ** More on the sweeper *)

Module SweepMore.

Import Go export main Terms MoreTerms Scenario SweepFacts.

Lemma announced_app (a b : list Effect) :
  announced (a ++ b) = (announced a ++ announced b)%list.
Proof.
  induction a as [|e a IH]; [reflexivity|].
  destruct e as [[]| | | | |]; cbn; rewrite ?IH; reflexivity.
Qed.

(** The loop announces what it removes, as it removes it. *)
Lemma sweep_announces (prefix pattern : string) (entries : list DirEntry) :
  forall (w w' : World) (err : option error),
    sweep prefix pattern entries w = (err, w') ->
    exists qs,
      announced (trace w') = (announced (trace w) ++ qs)%list
      /\ removals (trace w') = (removals (trace w) ++ qs)%list.
Proof.
  induction entries as [|e rest IH]; intros w w' err Hrun.
  - cbn in Hrun. injection Hrun as <- <-. exists []. rewrite !app_nil_r. auto.
  - destruct (wanted_failure_cases pattern (fs w) e) as [[Hw|Hw] [Hf|[x Hf]]].
    + rewrite sweep_skip in Hrun by assumption. exact (IH _ _ _ Hrun).
    + rewrite sweep_bad_pattern with (err := x) in Hrun by assumption.
      injection Hrun as <- <-. exists []. rewrite !app_nil_r. auto.
    + rewrite sweep_remove_ok in Hrun by assumption.
      destruct (IH _ _ _ Hrun) as (qs & Ha & Hr). cbn [trace] in Ha, Hr.
      exists (Join prefix (Name e) :: qs).
      rewrite Ha, Hr, announced_app, removals_app. cbn.
      rewrite <- !app_assoc. auto.
    + rewrite sweep_remove_fail with (err := x) in Hrun by assumption.
      injection Hrun as <- <-. exists [Join prefix (Name e)].
      cbn [logged trace]. rewrite announced_app, removals_app. auto.
Qed.

(** X7.  A sweep logs "removing directory" for exactly the paths it hands
    to [os.RemoveAll], in the same order, whether it ends with an error or
    not: nothing is removed unannounced and nothing is announced without
    the removal being tried. *)
Theorem cleanup_announces (ctx : Context) (prefix pattern : string)
        (w : World) :
  exists qs,
    announced (trace (snd (cleanupTmpFiles ctx prefix pattern w)))
    = (announced (trace w) ++ qs)%list
    /\ removals (trace (snd (cleanupTmpFiles ctx prefix pattern w)))
       = (removals (trace w) ++ qs)%list.
Proof.
  rewrite cleanupTmpFiles_unfold. destruct (readErr (fs w)) as [err|].
  - exists []. cbn. rewrite announced_app, removals_app. cbn.
    rewrite !app_nil_r. auto.
  - destruct (sweep prefix pattern (map entry (root (fs w)))
                    (logged w [OsReadDir prefix])) as [err w'] eqn:Hrun.
    destruct (sweep_announces _ _ _ _ _ _ Hrun) as (qs & Ha & Hr).
    exists qs. cbn [snd]. rewrite Ha, Hr. cbn [logged trace].
    rewrite announced_app, removals_app. cbn. rewrite !app_nil_r. auto.
Qed.







End SweepMore.

(** ** More on the two trigger paths *)

Module TriggerMore.

Import Go export main Terms MoreTerms Scenario SweepFacts TriggerFacts.

Section Paths.

Variable url_Parse : string -> option error.
Variable json_Marshal : ExportOutput -> string + error.
Variable p : dgraphParams.
Variable mutate : Call -> Reply.
Variable ctx : Context.

(** What the trace shows after the effects [l] and the cleanup block. *)
Lemma after_cleanup (w : World) (l : list Effect) :
  let w' := snd (cleanupIfEnabled p ctx (logged w l)) in
  (forall f, issued f (trace w') = issued f (trace w) + issued f l)
  /\ (forall j, responses j (trace w')
                = (responses j (trace w) ++ responses j l)%list).
Proof.
  cbv zeta.
  destruct (cleanupIfEnabled_any p ctx (logged w l))
    as (tr & Ht & Hi & _ & Hw).
  rewrite Ht. cbn [logged trace]. split.
  - intros f. rewrite !issued_app, Hi. lia.
  - intros j. rewrite !responses_app, Hw, app_nil_r. reflexivity.
Qed.

Lemma after_effects (w : World) (l : list Effect) :
  (forall f, issued f (trace (logged w l)) = issued f (trace w) + issued f l)
  /\ (forall j, responses j (trace (logged w l))
                = (responses j (trace w) ++ responses j l)%list).
Proof.
  cbn [logged trace]. split; intros.
  - apply issued_app.
  - apply responses_app.
Qed.

(** The handler, by the ways it can go, as effects followed or not by the
    cleanup block. *)
Lemma handler_shape (id : nat) (method : string) :
  exists (l : list Effect) (swept : bool),
    (forall w,
        snd (apiExportHandler url_Parse json_Marshal p mutate ctx id method w)
        = if swept then snd (cleanupIfEnabled p ctx (logged w l))
          else logged w l)
    /\ (exists answer, forall j,
           responses j l = if Nat.eqb id j then [answer] else [])
    /\ issued anyone l
       = if String.eqb method "POST"
         then match newClient url_Parse p with
              | inl _ => 1
              | inr _ => 0
              end
         else 0.
Proof.
  assert (Hone : forall (st : nat) (body : string) (pre : list Effect),
             (forall j, responses j pre = []) ->
             exists answer, forall j,
               responses j (pre ++ [HttpWrite id st body])
               = if Nat.eqb id j then [answer] else []).
  { intros st body pre Hpre. exists (st, body). intros j.
    rewrite responses_app, Hpre. reflexivity. }
  destruct (String.eqb_spec method "POST") as [->|Hm].
  - destruct (newClient url_Parse p) as [c|err] eqn:Hc.
    + destruct (Export mutate c ctx) as [out|err] eqn:He.
      * destruct (json_Marshal out) as [b|err] eqn:Hj.
        -- exists [Mutate (OnDemand id) (Export_call c ctx);
                   MutateDone (OnDemand id);
                   HttpWrite id 200 (b ++ newline)], true.
           split; [|split; [|reflexivity]].
           ++ intros w.
              rewrite (handler_succeeded url_Parse json_Marshal p mutate ctx
                                         id w c out b Hc He Hj).
              reflexivity.
           ++ apply (Hone 200 (b ++ newline)
                          [Mutate (OnDemand id) (Export_call c ctx);
                           MutateDone (OnDemand id)]).
              reflexivity.
        -- exists [Mutate (OnDemand id) (Export_call c ctx);
                   MutateDone (OnDemand id);
                   HttpWrite id 200 (Error err ++ newline)], false.
           split; [|split; [|reflexivity]].
           ++ intros w.
              rewrite (handler_not_marshalled url_Parse json_Marshal p mutate
                         ctx id w c out err Hc He Hj).
              reflexivity.
           ++ apply (Hone 200 (Error err ++ newline)
                          [Mutate (OnDemand id) (Export_call c ctx);
                           MutateDone (OnDemand id)]).
              reflexivity.
      * exists [Mutate (OnDemand id) (Export_call c ctx);
                MutateDone (OnDemand id);
                HttpWrite id 200 (Error err ++ newline)], false.
        split; [|split; [|reflexivity]].
        -- intros w.
           rewrite (handler_failed url_Parse json_Marshal p mutate ctx id w c
                                   err Hc He).
           reflexivity.
        -- apply (Hone 200 (Error err ++ newline)
                       [Mutate (OnDemand id) (Export_call c ctx);
                        MutateDone (OnDemand id)]).
           reflexivity.
    + exists [HttpWrite id 200 (Error err ++ newline)], false.
      split; [|split; [|reflexivity]].
      * intros w.
        rewrite (handler_no_client url_Parse json_Marshal p mutate ctx id w
                                   err Hc).
        reflexivity.
      * apply (Hone 200 (Error err ++ newline) []). reflexivity.
  - exists [HttpWrite id 405 ("Method not allowed" ++ newline)], true.
    split; [|split; [|reflexivity]].
    + intros w.
      rewrite (handler_not_post url_Parse json_Marshal p mutate ctx id method
                                w Hm).
      reflexivity.
    + apply (Hone 405 ("Method not allowed" ++ newline) []). reflexivity.
Qed.

End Paths.

(** X9.  No retry: one turn of the timer loop issues exactly one remote
    call, whether the export succeeds or fails, and the handler of a
    request issues exactly one when the method is POST and the client
    could be built, and none otherwise. *)
Theorem one_call_per_trigger
        (url_Parse : string -> option error)
        (json_Marshal : ExportOutput -> string + error)
        (p : dgraphParams) (mutate : Call -> Reply) (c : Client)
        (ctx : Context) (id : nat) (method : string) (w : World) :
  issued anyone (trace (snd (exportLoop_iteration p mutate c ctx w)))
  = S (issued anyone (trace w))
  /\ issued anyone
       (trace (snd (apiExportHandler url_Parse json_Marshal p mutate ctx id
                                     method w)))
     = issued anyone (trace w)
       + (if String.eqb method "POST"
          then match newClient url_Parse p with
               | inl _ => 1
               | inr _ => 0
               end
          else 0).
Proof.
  split.
  - destruct (Export mutate c ctx) as [out|err] eqn:He.
    + rewrite (iteration_succeeded p mutate ctx c w out He).
      rewrite (proj1 (after_cleanup p ctx w _)). cbn. lia.
    + rewrite (iteration_failed p mutate ctx c w err He). cbn [snd].
      rewrite (proj1 (after_effects w _)). cbn. lia.
  - destruct (handler_shape url_Parse json_Marshal p mutate ctx id method)
      as (l & swept & Hw & _ & Hl).
    rewrite Hw, <- Hl. destruct swept.
    + apply (proj1 (after_cleanup p ctx w l)).
    + apply (proj1 (after_effects w l)).
Qed.

(** X10.  The handler writes exactly one response to its request and none
    to another, and what it writes does not depend on the directory or on
    how the sweep went: a failed sweep does not change the answer. *)
Theorem handler_answers_once
        (url_Parse : string -> option error)
        (json_Marshal : ExportOutput -> string + error)
        (p : dgraphParams) (mutate : Call -> Reply)
        (ctx : Context) (id : nat) (method : string) :
  exists answer : nat * string,
    forall (w : World) (j : nat),
      responses j
        (trace (snd (apiExportHandler url_Parse json_Marshal p mutate ctx id
                                      method w)))
      = (responses j (trace w) ++ (if Nat.eqb id j then [answer] else []))%list.
Proof.
  destruct (handler_shape url_Parse json_Marshal p mutate ctx id method)
    as (l & swept & Hw & (answer & Hl) & _).
  exists answer. intros w j. rewrite Hw, <- Hl. destruct swept.
  - apply (proj2 (after_cleanup p ctx w l)).
  - apply (proj2 (after_effects w l)).
Qed.

End TriggerMore.

(** ** More on the process *)

Module ProcessMore.

Import Go export main Terms MoreTerms Scenario SweepFacts TriggerFacts.
Import ProcessFacts.

Lemma keeps_ret {A : Type} (Q : World -> Prop) (a : A) : keeps Q (ret a).
Proof. intros w HQ. exact HQ. Qed.

Lemma keeps_bind {A B : Type} (Q : World -> Prop) (m : M A) (k : A -> M B) :
  keeps Q m -> (forall a, keeps Q (k a)) -> keeps Q (bind m k).
Proof.
  intros Hm Hk w HQ. unfold bind. specialize (Hm w HQ).
  destruct (m w) as [a w1]. exact (Hk a w1 Hm).
Qed.

Section Worlds.

Variable url_Parse : string -> option error.
Variable json_Marshal : ExportOutput -> string + error.
Variable p : dgraphParams.

(** A property of the world that plain effects and the cleanup block
    keep. *)
Variable Q : World -> Prop.
Hypothesis Q_plain : forall w e, plain e -> Q w -> Q (logged w [e]).
Hypothesis Q_cleanup : forall ctx, keeps Q (cleanupIfEnabled p ctx).

Lemma keeps_emit (e : Effect) : plain e -> keeps Q (emit e).
Proof. intros He w HQ. exact (Q_plain w e He HQ). Qed.

Lemma keeps_loop_enter : keeps Q (exportLoop_enter url_Parse p).
Proof.
  unfold exportLoop_enter. apply keeps_bind; [apply keeps_emit; exact I|].
  intros _. destruct (newClient url_Parse p).
  - apply keeps_ret.
  - apply keeps_bind; [apply keeps_emit; exact I|]. intros _. apply keeps_ret.
Qed.

Lemma keeps_loop_resume (ctx : Context) (res : ExportOutput + error) :
  keeps Q (exportLoop_resume p ctx res).
Proof.
  unfold exportLoop_resume. destruct res.
  - apply keeps_bind; [apply keeps_emit; exact I|]. intros _. apply Q_cleanup.
  - apply keeps_emit. exact I.
Qed.

Lemma keeps_handler_enter (ctx : Context) (id : nat) (method : string) :
  keeps Q (apiExportHandler_enter url_Parse p ctx id method).
Proof.
  unfold apiExportHandler_enter. destruct (String.eqb method "POST").
  - destruct (newClient url_Parse p).
    + apply keeps_ret.
    + apply keeps_bind; [apply keeps_emit; exact I|]. intros _.
      apply keeps_ret.
  - apply keeps_bind; [apply keeps_emit; exact I|]. intros _.
    apply keeps_bind; [apply Q_cleanup|]. intros _. apply keeps_ret.
Qed.

Lemma keeps_handler_resume (ctx : Context) (id : nat)
      (res : ExportOutput + error) :
  keeps Q (apiExportHandler_resume json_Marshal p ctx id res).
Proof.
  unfold apiExportHandler_resume. destruct res as [out|err].
  - destruct (json_Marshal out).
    + apply keeps_bind; [apply keeps_emit; exact I|]. intros _.
      apply Q_cleanup.
    + apply keeps_emit. exact I.
  - apply keeps_emit. exact I.
Qed.

(** Every step of the process keeps such a property. *)
Lemma step_keeps (s s' : Proc) (e : Event) :
  Q (world s) -> step url_Parse json_Marshal p s e = Some s' -> Q (world s').
Proof.
  intros HQ. unfold step.
  destruct (alive s); cbn [negb]; [|discriminate].
  destruct e as [| |identity| |[|]|method|[|id] reply|].
  - destruct (loop s); try discriminate.
    destruct (leaderDone s); [discriminate|].
    pose proof (keeps_loop_enter (world s) HQ) as HQ'.
    destruct (exportLoop_enter url_Parse p (world s)) as [c w].
    destruct c; intros H; injection H as <-; exact HQ'.
  - destruct (leaderDone s); [discriminate|].
    intros H; injection H as <-.
    exact (keeps_emit (Klog (LogV3 "stopped leading")) I (world s) HQ).
  - intros H; injection H as <-.
    exact (keeps_emit (Klog (LogInfo (identity ++ " is leader now"))) I
                      (world s) HQ).
  - destruct (loop s); intros H; injection H as <-; exact HQ.
  - destruct (loop s) as [|c|c|]; try discriminate.
    destruct (tickC s); [|discriminate].
    intros H; injection H as <-.
    assert (Hk : keeps Q (bind exportLoop_tick
                            (fun _ => emit (Mutate Timer
                                                   (Export_call c leaderCtx))))).
    { apply keeps_bind; [apply keeps_emit; exact I|].
      intros _. apply keeps_emit. exact I. }
    exact (Hk (world s) HQ).
  - destruct (loop s); try discriminate.
    destruct (leaderDone s); [|discriminate].
    intros H; injection H as <-. exact HQ.
  - pose proof (keeps_handler_enter mainCtx (nextReq s) method (world s) HQ)
      as HQ'.
    destruct (apiExportHandler_enter url_Parse p mainCtx (nextReq s) method
                                     (world s)) as [c w].
    destruct c as [c|]; intros H; injection H as <-; [|exact HQ'].
    exact (keeps_emit (Mutate (OnDemand (nextReq s)) (Export_call c mainCtx))
                      I w HQ').
  - destruct (loop s) as [|c|c|]; try discriminate.
    intros H; injection H as <-.
    assert (Hk : keeps Q (bind (emit (MutateDone Timer))
                            (fun _ => exportLoop_resume
                                        p leaderCtx (Export_return reply)))).
    { apply keeps_bind; [apply keeps_emit; exact I|].
      intros _. apply keeps_loop_resume. }
    exact (Hk (world s) HQ).
  - destruct (lookup id (inflight s)); [|discriminate].
    intros H; injection H as <-.
    assert (Hk : keeps Q (bind (emit (MutateDone (OnDemand id)))
                            (fun _ => apiExportHandler_resume
                                        json_Marshal p mainCtx id
                                        (Export_return reply)))).
    { apply keeps_bind; [apply keeps_emit; exact I|].
      intros _. apply keeps_handler_resume. }
    exact (Hk (world s) HQ).
  - destruct (leaderDone s); [|discriminate].
    intros H; injection H as <-. exact HQ.
Qed.

Lemma run_keeps (evs : list Event) :
  forall s s', Q (world s) ->
               run url_Parse json_Marshal p s evs = Some s' -> Q (world s').
Proof.
  induction evs as [|e evs IH]; intros s s' HQ Hrun; cbn in Hrun.
  - injection Hrun as <-. exact HQ.
  - destruct (step url_Parse json_Marshal p s e) as [s1|] eqn:Hstep;
      [|discriminate].
    exact (IH s1 s' (step_keeps s s1 e HQ Hstep) Hrun).
Qed.

End Worlds.

(** X11.  With the cleanup switched off, as it is by default, no run of
    the process lists the directory, removes anything from it or changes
    it, whatever ticks and requests it serves. *)
Theorem disabled_cleanup_never_touches
        (url_Parse : string -> option error)
        (json_Marshal : ExportOutput -> string + error)
        (p : dgraphParams) (f : FS) (evs : list Event) (s : Proc)
        (Hoff : cleanup (tmp p) = false)
        (Hrun : run url_Parse json_Marshal p (init f) evs = Some s) :
  fs (world s) = f
  /\ sweeps (trace (world s)) = 0
  /\ removals (trace (world s)) = [].
Proof.
  refine (run_keeps url_Parse json_Marshal p
            (fun w => fs w = f /\ sweeps (trace w) = 0
                      /\ removals (trace w) = [])
            _ _ evs (init f) s _ Hrun).
  - intros w e He (H1 & H2 & H3). cbn [logged fs trace].
    rewrite sweeps_app, removals_app, H2, H3.
    destruct e as [[]| | | | |]; cbn in He; try contradiction; cbn; auto.
  - intros ctx w HQ. rewrite cleanupIfEnabled_off by exact Hoff. exact HQ.
  - cbn. auto.
Qed.

Lemma disabled_cleanup_never_touches_witness :
  match run url_ok marshal0 params_off (init (fs scenario5))
            [Request "GET"; StartedLeading; PeriodElapsed; Select CaseTick;
             Returns Timer (exported, None)]
  with
  | Some s => fs (world s) = fs scenario5 /\ sweeps (trace (world s)) = 0
  | None => False
  end.
Proof.
  destruct (run url_ok marshal0 params_off (init (fs scenario5))
                [Request "GET"; StartedLeading; PeriodElapsed;
                 Select CaseTick; Returns Timer (exported, None)])
    as [s|] eqn:Hrun.
  - refine ((fun H => _)
              (disabled_cleanup_never_touches url_ok marshal0 params_off
                 (fs scenario5) _ s eq_refl Hrun)).
    destruct H as (H1 & H2 & _). split; [exact H1|exact H2].
  - vm_compute in Hrun. discriminate Hrun.
Defined.




Lemma calls_app (a b : list Effect) :
  calls (a ++ b) = (calls a ++ calls b)%list.
Proof.
  induction a as [|e a IH]; [reflexivity|].
  destruct e; cbn; rewrite ?IH; reflexivity.
Qed.

Lemma calls_none (tr : list Effect) : issued anyone tr = 0 -> calls tr = [].
Proof.
  unfold issued. induction tr as [|e tr IH]; [reflexivity|].
  destruct e; cbn; try exact IH. discriminate.
Qed.

Lemma silent_calls {A : Type} (m : M A) (w : World) (l : list Effect) :
  silent m ->
  calls (trace (snd (m (logged w l)))) = (calls (trace w) ++ calls l)%list.
Proof.
  intros Hm. destruct (Hm (logged w l)) as (tr & Ht & Hi & _).
  rewrite Ht. cbn [logged trace].
  rewrite !calls_app, (calls_none tr (Hi anyone)), app_nil_r. reflexivity.
Qed.

Lemma silent_calls0 {A : Type} (m : M A) (w : World) :
  silent m -> calls (trace (snd (m w))) = calls (trace w).
Proof.
  intros Hm. destruct (Hm w) as (tr & Ht & Hi & _).
  rewrite Ht, calls_app, (calls_none tr (Hi anyone)), app_nil_r. reflexivity.
Qed.

Section Clients.

Variable url_Parse : string -> option error.
Variable json_Marshal : ExportOutput -> string + error.
Variable p : dgraphParams.

Lemma loop_enter_client (w w' : World) (c : Client) :
  exportLoop_enter url_Parse p w = (Some c, w') ->
  newClient url_Parse p = inl c.
Proof.
  unfold exportLoop_enter, bind, emit, ret.
  destruct (newClient url_Parse p) as [c0|err]; [|discriminate].
  intros H. injection H as <- _. reflexivity.
Qed.

Lemma handler_enter_client (ctx : Context) (id : nat) (method : string)
      (w w' : World) (c : Client) :
  apiExportHandler_enter url_Parse p ctx id method w = (Some c, w') ->
  newClient url_Parse p = inl c /\ w' = w.
Proof.
  unfold apiExportHandler_enter, bind, emit, ret.
  destruct (String.eqb method "POST").
  - destruct (newClient url_Parse p) as [c0|err]; [|discriminate].
    intros H. injection H as <- <-. auto.
  - destruct (cleanupIfEnabled p ctx _). discriminate.
Qed.

Lemma configured_call (c : Client) (ctx : Context) :
  newClient url_Parse p = inl c ->
  call_cli (Export_call c ctx) = endpoint p
  /\ call_vars (Export_call c ctx) = configured p.
Proof.
  intros H. apply ExportMore.newClient_configured in H. subst c.
  split; reflexivity.
Qed.

Lemma lookup_in (id : nat) (l : list (nat * Client)) (c : Client) :
  lookup id l = Some c -> exists h, In h l /\ snd h = c.
Proof.
  unfold lookup.
  destruct (find (fun h => fst h =? id) l) as [h|] eqn:Hf; [|discriminate].
  intros H. injection H as <-. apply find_some in Hf. exists h. tauto.
Qed.

Lemma step_as_configured (s s' : Proc) (e : Event) :
  as_configured url_Parse p s ->
  step url_Parse json_Marshal p s e = Some s' ->
  as_configured url_Parse p s'.
Proof.
  intros (Hl & Hf & Hc). unfold step.
  destruct (alive s); cbn [negb]; [|discriminate].
  destruct e as [| |identity| |[|]|method|[|id] reply|].
  - destruct (loop s) eqn:Hloop; try discriminate.
    destruct (leaderDone s); [discriminate|].
    pose proof (silent_calls0 _ (world s) (silent_loop_enter url_Parse p))
      as Hk.
    destruct (exportLoop_enter url_Parse p (world s)) as [c w] eqn:He.
    cbn [snd] in Hk.
    destruct c as [c|]; intros H; injection H as <-; unfold as_configured;
      cbn [loop inflight world]; rewrite Hk.
    + split; [|auto]. intros c' [H|H]; [|discriminate].
      injection H as <-. exact (loop_enter_client _ _ _ He).
    + split; [|auto]. intros c' [H|H]; discriminate.
  - destruct (leaderDone s); [discriminate|].
    intros H; injection H as <-. unfold as_configured.
    cbn [loop inflight world emit snd trace]. rewrite calls_app. cbn.
    rewrite app_nil_r. auto.
  - intros H; injection H as <-. unfold as_configured.
    cbn [loop inflight world emit snd trace]. rewrite calls_app. cbn.
    rewrite app_nil_r. auto.
  - destruct (loop s) eqn:Hloop; intros H; injection H as <-;
      unfold as_configured; cbn [loop inflight world]; rewrite ?Hloop; auto.
  - destruct (loop s) as [|c|c|] eqn:Hloop; try discriminate.
    destruct (tickC s); [|discriminate].
    intros H; injection H as <-. unfold as_configured.
    cbn [loop inflight world]. steps. rewrite !calls_app. cbn.
    rewrite app_nil_r.
    assert (Hc0 : newClient url_Parse p = inl c) by (apply Hl; auto).
    split; [|split; [exact Hf|]].
    + intros c' [H|H]; [discriminate|]. injection H as <-. exact Hc0.
    + apply Forall_app. split; [exact Hc|].
      constructor; [exact (configured_call c leaderCtx Hc0)|constructor].
  - destruct (loop s) eqn:Hloop; try discriminate.
    destruct (leaderDone s); [|discriminate].
    intros H; injection H as <-. unfold as_configured.
    cbn [loop inflight world]. split; [|auto].
    intros c' [H|H]; discriminate.
  - pose proof (silent_calls0 _ (world s)
                  (silent_handler_enter url_Parse p mainCtx (nextReq s)
                                        method)) as Hk.
    destruct (apiExportHandler_enter url_Parse p mainCtx (nextReq s) method
                                     (world s)) as [c w] eqn:He.
    cbn [snd] in Hk.
    destruct c as [c|]; intros H; injection H as <-; unfold as_configured;
      cbn [loop inflight world emit snd trace]; [|rewrite Hk; auto].
    destruct (handler_enter_client _ _ _ _ _ _ He) as [Hc0 _].
    rewrite calls_app, Hk. cbn.
    split; [exact Hl|split].
    + apply Forall_app. split; [exact Hf|]. constructor; [exact Hc0|constructor].
    + apply Forall_app. split; [exact Hc|].
      constructor; [exact (configured_call c mainCtx Hc0)|constructor].
  - destruct (loop s) as [|c|c|] eqn:Hloop; try discriminate.
    intros H; injection H as <-. unfold as_configured.
    cbn [loop inflight world]. unfold bind. cbn [emit].
    pose proof (silent_calls _ (world s) [MutateDone Timer]
                  (silent_loop_resume p leaderCtx (Export_return reply)))
      as Hk.
    unfold logged in Hk. rewrite Hk. cbn. rewrite app_nil_r.
    split; [|auto]. intros c' [H|H]; [|discriminate].
    injection H as <-. apply Hl. auto.
  - destruct (lookup id (inflight s)) as [c|] eqn:Hlook; [|discriminate].
    intros H; injection H as <-. unfold as_configured.
    cbn [loop inflight world]. unfold bind. cbn [emit].
    pose proof (silent_calls _ (world s) [MutateDone (OnDemand id)]
                  (silent_handler_resume json_Marshal p mainCtx id
                                         (Export_return reply))) as Hk.
    unfold logged in Hk. rewrite Hk. cbn. rewrite app_nil_r.
    split; [exact Hl|split; [|exact Hc]].
    unfold without. apply Forall_forall. intros h Hh.
    apply filter_In in Hh. rewrite Forall_forall in Hf. apply Hf. tauto.
  - destruct (leaderDone s); [|discriminate].
    intros H; injection H as <-. unfold as_configured.
    cbn [loop inflight world]. auto.
Qed.

Lemma run_as_configured (evs : list Event) :
  forall s s', as_configured url_Parse p s ->
               run url_Parse json_Marshal p s evs = Some s' ->
               as_configured url_Parse p s'.
Proof.
  induction evs as [|e evs IH]; intros s s' Hs Hrun; cbn in Hrun.
  - injection Hrun as <-. exact Hs.
  - destruct (step url_Parse json_Marshal p s e) as [s1|] eqn:Hstep;
      [|discriminate].
    exact (IH s1 s' (step_as_configured s s1 e Hs Hstep) Hrun).
Qed.

End Clients.

(** X13.  Every remote call the process ever issues, from the timer loop
    or from a request, goes to the configured endpoint and carries the
    same input: format rdf, the configured destination, the access and
    secret key of the environment, no session token, not anonymous,
    namespace 0. *)
Theorem every_call_configured
        (url_Parse : string -> option error)
        (json_Marshal : ExportOutput -> string + error)
        (p : dgraphParams) (f : FS) (evs : list Event) (s : Proc)
        (Hrun : run url_Parse json_Marshal p (init f) evs = Some s) :
  forall who call,
    In (Mutate who call) (trace (world s)) ->
    call_cli call = endpoint p /\ call_vars call = configured p.
Proof.
  assert (Hinit : as_configured url_Parse p (init f)).
  { unfold as_configured. cbn. split; [|auto].
    intros c [H|H]; discriminate. }
  destruct (run_as_configured url_Parse json_Marshal p evs (init f) s Hinit
                              Hrun) as (_ & _ & Hc).
  intros who call Hin. rewrite Forall_forall in Hc. apply Hc.
  clear - Hin. induction (trace (world s)) as [|e tr IH]; [destruct Hin|].
  destruct Hin as [->|Hin]; [left; reflexivity|].
  destruct e; cbn; auto.
Qed.

Lemma every_call_configured_witness :
  call_vars (Export_call client0 mainCtx) = configured params0.
Proof.
  refine (proj2
            (every_call_configured url_ok marshal0 params0 (fs scenario5)
               [Request "POST"] _ eq_refl (OnDemand 0)
               (Export_call client0 mainCtx) _)).
  cbn. auto.
Defined.

Section Endpoint.

Variable url_Parse : string -> option error.
Variable json_Marshal : ExportOutput -> string + error.
Variable p : dgraphParams.
Variable bad : error.
Hypothesis Hbad : newClient url_Parse p = inr bad.

Lemma step_clientless (s s' : Proc) (e : Event) :
  clientless s ->
  step url_Parse json_Marshal p s e = Some s' -> clientless s'.
Proof.
  intros (Hl & Hf & Hi). unfold step. rewrite Hl, Hf.
  destruct (alive s); cbn [negb]; [|discriminate].
  destruct e as [| |identity| |[|]|method|[|id] reply|]; try discriminate.
  - destruct (leaderDone s); [discriminate|].
    pose proof (silent_counts _ (world s) (silent_loop_enter url_Parse p)
                              anyone) as [Hk _].
    destruct (exportLoop_enter url_Parse p (world s)) as [c w] eqn:He.
    cbn [snd] in Hk. destruct c as [c|].
    + apply loop_enter_client in He. rewrite Hbad in He. discriminate.
    + intros H; injection H as <-. unfold clientless.
      cbn [loop inflight world]. rewrite Hk. auto.
  - destruct (leaderDone s); [discriminate|].
    intros H; injection H as <-. unfold clientless.
    cbn [loop inflight world emit snd trace]. rewrite issued_app, Hi. auto.
  - intros H; injection H as <-. unfold clientless.
    cbn [loop inflight world emit snd trace]. rewrite issued_app, Hi. auto.
  - intros H; injection H as <-. unfold clientless. auto.
  - pose proof (silent_counts _ (world s)
                  (silent_handler_enter url_Parse p mainCtx (nextReq s)
                                        method) anyone) as [Hk _].
    destruct (apiExportHandler_enter url_Parse p mainCtx (nextReq s) method
                                     (world s)) as [c w] eqn:He.
    cbn [snd] in Hk. destruct c as [c|].
    + apply handler_enter_client in He. destruct He as [He _].
      rewrite Hbad in He. discriminate.
    + intros H; injection H as <-. unfold clientless.
      cbn [loop inflight world]. rewrite Hk. auto.
  - destruct (leaderDone s); [|discriminate].
    intros H; injection H as <-. unfold clientless.
    cbn [loop inflight world]. auto.
Qed.

Lemma run_clientless (evs : list Event) :
  forall s s', clientless s ->
               run url_Parse json_Marshal p s evs = Some s' -> clientless s'.
Proof.
  induction evs as [|e evs IH]; intros s s' Hs Hrun; cbn in Hrun.
  - injection Hrun as <-. exact Hs.
  - destruct (step url_Parse json_Marshal p s e) as [s1|] eqn:Hstep;
      [|discriminate].
    exact (IH s1 s' (step_clientless s s1 e Hs Hstep) Hrun).
Qed.

End Endpoint.

(** X14.  With an endpoint that [url.Parse] rejects, no run of the process
    ever issues a remote call or leaves a goroutine waiting for one, and
    the start of the export loop ends the process. *)
Theorem no_call_without_endpoint
        (url_Parse : string -> option error)
        (json_Marshal : ExportOutput -> string + error)
        (p : dgraphParams) (bad : error) (f : FS) (evs : list Event)
        (s : Proc)
        (Hbad : newClient url_Parse p = inr bad)
        (Hrun : run url_Parse json_Marshal p (init f) evs = Some s) :
  issued anyone (trace (world s)) = 0
  /\ inflight s = []
  /\ forall s', step url_Parse json_Marshal p s StartedLeading = Some s' ->
                alive s' = false
                /\ In (Klog (LogFatal bad)) (trace (world s')).
Proof.
  assert (Hinit : clientless (init f)) by (unfold clientless; cbn; auto).
  destruct (run_clientless url_Parse json_Marshal p bad Hbad evs (init f) s
                           Hinit Hrun) as (Hl & Hf & Hi).
  split; [exact Hi|split; [exact Hf|]].
  intros s'. unfold step. rewrite Hl.
  destruct (alive s); cbn [negb]; [|discriminate].
  destruct (leaderDone s); [discriminate|].
  unfold exportLoop_enter, bind, emit, ret. rewrite Hbad.
  intros H; injection H as <-. cbn [alive world trace].
  split; [reflexivity|]. apply in_or_app. right. left. reflexivity.
Qed.

Lemma no_call_without_endpoint_witness :
  match run url_bad marshal0 params_bad (init (fs scenario5))
            [Request "POST"; Request "POST"; StartedLeading]
  with
  | Some s => issued anyone (trace (world s)) = 0 /\ inflight s = []
  | None => False
  end.
Proof.
  destruct (run url_bad marshal0 params_bad (init (fs scenario5))
                [Request "POST"; Request "POST"; StartedLeading])
    as [s|] eqn:Hrun.
  - refine ((fun H => _)
              (no_call_without_endpoint url_bad marshal0 params_bad _
                 (fs scenario5) _ s eq_refl Hrun)).
    destruct H as (H1 & H2 & _). split; [exact H1|exact H2].
  - vm_compute in Hrun. discriminate Hrun.
Defined.

Lemma says_ret {A : Type} (a : A) : says (fun _ => []) (ret a).
Proof. intros w j. cbn. rewrite app_nil_r. reflexivity. Qed.

Lemma says_emit (e : Effect) : says (fun j => responses j [e]) (emit e).
Proof. intros w j. cbn. apply responses_app. Qed.

Lemma says_bind {A B : Type} (X1 X2 : nat -> list (nat * string))
      (m : M A) (k : A -> M B) :
  says X1 m -> (forall a, says X2 (k a)) ->
  says (fun j => (X1 j ++ X2 j)%list) (bind m k).
Proof.
  intros Hm Hk w j. unfold bind. specialize (Hm w j).
  destruct (m w) as [a w1]. cbn [snd] in Hm.
  rewrite (Hk a w1 j), Hm, app_assoc. reflexivity.
Qed.

Lemma says_ext {A : Type} (X Y : nat -> list (nat * string)) (m : M A) :
  (forall j, X j = Y j) -> says X m -> says Y m.
Proof. intros Hxy Hm w j. rewrite <- Hxy. apply Hm. Qed.

Lemma says_cleanup (p : dgraphParams) (ctx : Context) :
  says (fun _ => []) (cleanupIfEnabled p ctx).
Proof.
  intros w j. destruct (cleanupIfEnabled_any p ctx w) as (tr & Ht & _ & _ & Hw).
  rewrite Ht, responses_app, Hw. reflexivity.
Qed.

Section Responses.

Variable url_Parse : string -> option error.
Variable json_Marshal : ExportOutput -> string + error.
Variable p : dgraphParams.

Lemma says_loop_enter : says (fun _ => []) (exportLoop_enter url_Parse p).
Proof.
  unfold exportLoop_enter.
  destruct (newClient url_Parse p).
  - refine (says_ext _ _ _ _ (says_bind _ _ _ _ (says_emit _)
                                        (fun _ => says_ret _))).
    reflexivity.
  - refine (says_ext _ _ _ _
              (says_bind _ _ _ _ (says_emit _)
                 (fun _ => says_bind _ _ _ _ (says_emit _)
                                     (fun _ => says_ret _)))).
    reflexivity.
Qed.

Lemma says_loop_resume (ctx : Context) (res : ExportOutput + error) :
  says (fun _ => []) (exportLoop_resume p ctx res).
Proof.
  unfold exportLoop_resume. destruct res as [out|err].
  - refine (says_ext _ _ _ _ (says_bind _ _ _ _ (says_emit _)
                                        (fun _ => says_cleanup p ctx))).
    reflexivity.
  - refine (says_ext _ _ _ _ (says_emit _)). reflexivity.
Qed.

Lemma says_handler_resume (ctx : Context) (id : nat)
      (res : ExportOutput + error) :
  exists answer,
    says (once id answer) (apiExportHandler_resume json_Marshal p ctx id res).
Proof.
  unfold apiExportHandler_resume, once. destruct res as [out|err].
  - destruct (json_Marshal out) as [b|err].
    + exists (200, b ++ newline).
      refine (says_ext _ _ _ _ (says_bind _ _ _ _ (says_emit _)
                                          (fun _ => says_cleanup p ctx))).
      intros j. cbn. destruct (Nat.eqb id j); reflexivity.
    + exists (200, Error err ++ newline).
      refine (says_ext _ _ _ _ (says_emit _)). reflexivity.
  - exists (200, Error err ++ newline).
    refine (says_ext _ _ _ _ (says_emit _)). reflexivity.
Qed.

(** Whether the handler goes on to call [Export]. *)
Lemma handler_enter_result (ctx : Context) (id : nat) (method : string)
      (w : World) :
  (exists c, fst (apiExportHandler_enter url_Parse p ctx id method w) = Some c
             /\ forall j,
                 responses j
                   (trace (snd (apiExportHandler_enter url_Parse p ctx id
                                                       method w)))
                 = responses j (trace w))
  \/ (fst (apiExportHandler_enter url_Parse p ctx id method w) = None
      /\ exists answer, forall j,
          responses j
            (trace (snd (apiExportHandler_enter url_Parse p ctx id method w)))
          = (responses j (trace w) ++ once id answer j)%list).
Proof.
  unfold apiExportHandler_enter, once.
  destruct (String.eqb method "POST").
  - destruct (newClient url_Parse p) as [c|err].
    + left. exists c. split; reflexivity.
    + right. split; [reflexivity|]. exists (200, Error err ++ newline).
      intros j. cbn. rewrite responses_app. reflexivity.
  - right. split.
    + unfold bind. destruct (emit _ w) as [u w1].
      destruct (cleanupIfEnabled p ctx w1). reflexivity.
    + exists (405, "Method not allowed" ++ newline). intros j.
      pose proof (says_bind _ _ _ _
                    (says_emit (HttpWrite id 405
                                          ("Method not allowed" ++ newline)))
                    (fun _ => says_bind _ _ _ _ (says_cleanup p ctx)
                                        (fun _ => says_ret (@None Client)))
                    w j) as H.
      rewrite H. cbn. destruct (Nat.eqb id j); reflexivity.
Qed.

End Responses.

Lemma waiting_joined (id id0 : nat) (c : Client) (l : list (nat * Client)) :
  existsb (Nat.eqb id) (map fst (l ++ [(id0, c)]))
  = existsb (Nat.eqb id) (map fst l) || Nat.eqb id id0.
Proof.
  rewrite map_app, existsb_app. cbn. rewrite orb_false_r. reflexivity.
Qed.

Lemma waiting_left (id id0 : nat) (l : list (nat * Client)) :
  existsb (Nat.eqb id) (map fst (without id0 l))
  = if Nat.eqb id id0 then false else existsb (Nat.eqb id) (map fst l).
Proof.
  unfold without. induction l as [|h l IH]; cbn.
  - destruct (Nat.eqb id id0); reflexivity.
  - destruct (Nat.eqb_spec (fst h) id0) as [Hh|Hh]; cbn.
    + rewrite IH. destruct (Nat.eqb_spec id id0) as [Hi|Hi]; [reflexivity|].
      destruct (Nat.eqb_spec id (fst h)); [congruence|reflexivity].
    + rewrite IH. destruct (Nat.eqb_spec id id0) as [Hi|Hi]; [|reflexivity].
      destruct (Nat.eqb_spec id (fst h)); [congruence|reflexivity].
Qed.

Lemma lookup_waiting (id : nat) (c : Client) (l : list (nat * Client))
      (bound : nat) :
  lookup id l = Some c -> Forall (fun h => fst h < bound) l ->
  existsb (Nat.eqb id) (map fst l) = true /\ id < bound.
Proof.
  unfold lookup.
  destruct (find (fun h => fst h =? id) l) as [h|] eqn:Hf; [|discriminate].
  intros _ Hb. apply find_some in Hf. destruct Hf as [Hin Heq].
  apply Nat.eqb_eq in Heq. rewrite Forall_forall in Hb.
  split; [|rewrite <- Heq; exact (Hb h Hin)].
  apply existsb_exists. exists (fst h). split; [apply in_map; exact Hin|].
  apply Nat.eqb_eq. symmetry. exact Heq.
Qed.

Lemma beyond_not_waiting (l : list (nat * Client)) (bound : nat) :
  Forall (fun h => fst h < bound) l ->
  existsb (Nat.eqb bound) (map fst l) = false.
Proof.
  induction 1 as [|h l Hh _ IH]; [reflexivity|]. cbn. rewrite IH.
  destruct (Nat.eqb_spec bound (fst h)); [lia|reflexivity].
Qed.

Section Answers.

Variable url_Parse : string -> option error.
Variable json_Marshal : ExportOutput -> string + error.
Variable p : dgraphParams.

Lemma step_answered (s s' : Proc) (e : Event) :
  answered s ->
  step url_Parse json_Marshal p s e = Some s' -> answered s'.
Proof.
  intros (Hb & Ha). unfold step.
  destruct (alive s); cbn [negb]; [|discriminate].
  unfold answered, waiting in Ha |- *.
  destruct e as [| |identity| |[|]|method|[|id0] reply|].
  - destruct (loop s); try discriminate.
    destruct (leaderDone s); [discriminate|].
    pose proof (says_loop_enter url_Parse p (world s)) as Hk.
    destruct (exportLoop_enter url_Parse p (world s)) as [c w].
    cbn [snd] in Hk.
    destruct c; intros H; injection H as <-; cbn [inflight nextReq world];
      (split; [exact Hb|]); intros id; rewrite Hk, app_nil_r; apply Ha.
  - destruct (leaderDone s); [discriminate|].
    intros H; injection H as <-. cbn [inflight nextReq world emit snd trace].
    split; [exact Hb|]. intros id. rewrite responses_app. cbn.
    rewrite app_nil_r. apply Ha.
  - intros H; injection H as <-. cbn [inflight nextReq world emit snd trace].
    split; [exact Hb|]. intros id. rewrite responses_app. cbn.
    rewrite app_nil_r. apply Ha.
  - destruct (loop s); intros H; injection H as <-;
      cbn [inflight nextReq world]; auto.
  - destruct (loop s) as [|c|c|]; try discriminate.
    destruct (tickC s); [|discriminate].
    intros H; injection H as <-. cbn [inflight nextReq world].
    split; [exact Hb|]. intros id. steps. rewrite !responses_app. cbn.
    rewrite !app_nil_r. apply Ha.
  - destruct (loop s); try discriminate.
    destruct (leaderDone s); [|discriminate].
    intros H; injection H as <-. cbn [inflight nextReq world]. auto.
  - pose proof (beyond_not_waiting _ _ Hb) as Hnew.
    destruct (handler_enter_result url_Parse p mainCtx (nextReq s) method
                                   (world s))
      as [(c & Hc & Hk)|(Hc & answer & Hk)];
      destruct (apiExportHandler_enter url_Parse p mainCtx (nextReq s) method
                                       (world s)) as [c' w];
      cbn [fst snd] in Hc, Hk; subst c';
      intros H; injection H as <-; cbn [inflight nextReq world emit snd trace].
    + split.
      * apply Forall_app. split; [|repeat constructor].
        eapply Forall_impl; [|exact Hb]. cbn. intros; lia.
      * intros id. rewrite responses_app, Hk. cbn [responses].
        rewrite app_nil_r, waiting_joined, Ha.
        destruct (Nat.eqb_spec id (nextReq s)) as [->|Hne].
        -- rewrite Hnew, Nat.ltb_irrefl. reflexivity.
        -- rewrite orb_false_r.
           destruct (existsb (Nat.eqb id) (map fst (inflight s)));
             [reflexivity|].
           destruct (Nat.ltb_spec id (nextReq s)),
             (Nat.ltb_spec id (S (nextReq s))); try reflexivity; lia.
    + split.
      * eapply Forall_impl; [|exact Hb]. cbn. intros; lia.
      * intros id. rewrite Hk, length_app, Ha. unfold once.
        destruct (Nat.eqb_spec (nextReq s) id) as [<-|Hne].
        -- rewrite Hnew, Nat.ltb_irrefl.
           destruct (Nat.ltb_spec (nextReq s) (S (nextReq s)));
             [reflexivity|lia].
        -- cbn [length]. rewrite Nat.add_0_r.
           destruct (existsb (Nat.eqb id) (map fst (inflight s)));
             [reflexivity|].
           destruct (Nat.ltb_spec id (nextReq s)),
             (Nat.ltb_spec id (S (nextReq s))); try reflexivity; lia.
  - destruct (loop s) as [|c|c|]; try discriminate.
    intros H; injection H as <-. cbn [inflight nextReq world].
    split; [exact Hb|]. intros id.
    pose proof (says_bind _ _ _ _ (says_emit (MutateDone Timer))
                  (fun _ => says_loop_resume p leaderCtx
                                             (Export_return reply))
                  (world s) id) as Hk.
    rewrite Hk. cbn. rewrite app_nil_r. apply Ha.
  - destruct (lookup id0 (inflight s)) as [c|] eqn:Hl; [|discriminate].
    destruct (lookup_waiting _ _ _ _ Hl Hb) as [Hw Hlt].
    destruct (says_handler_resume json_Marshal p mainCtx id0
                                  (Export_return reply)) as (answer & Hs).
    intros H; injection H as <-. cbn [inflight nextReq world].
    split.
    + unfold without. apply Forall_forall. intros h Hh.
      apply filter_In in Hh. rewrite Forall_forall in Hb. apply Hb. tauto.
    + intros id.
      pose proof (says_bind _ _ _ _ (says_emit (MutateDone (OnDemand id0)))
                    (fun _ => Hs) (world s) id) as Hk.
      rewrite Hk, length_app, Ha, waiting_left. unfold once.
      cbn [responses app length].
      rewrite (Nat.eqb_sym id0 id).
      destruct (Nat.eqb_spec id id0) as [->|Hne].
      * rewrite Hw. cbn [length Nat.add].
        destruct (Nat.ltb_spec id0 (nextReq s)); [reflexivity|lia].
      * cbn [length]. rewrite Nat.add_0_r. reflexivity.
  - destruct (leaderDone s); [|discriminate].
    intros H; injection H as <-. cbn [inflight nextReq world]. auto.
Qed.

Lemma run_answered (evs : list Event) :
  forall s s', answered s ->
               run url_Parse json_Marshal p s evs = Some s' -> answered s'.
Proof.
  induction evs as [|e evs IH]; intros s s' Hs Hrun; cbn in Hrun.
  - injection Hrun as <-. exact Hs.
  - destruct (step url_Parse json_Marshal p s e) as [s1|] eqn:Hstep;
      [|discriminate].
    exact (IH s1 s' (step_answered s s1 e Hs Hstep) Hrun).
Qed.

End Answers.

(** X15.  After every sequence of events, every request served so far has
    exactly one response, except those whose handler still waits for its
    export call, which have none yet; requests not yet made have none.  No
    request is answered twice and none is dropped once its handler has
    gone on. *)
Theorem every_request_answered_once
        (url_Parse : string -> option error)
        (json_Marshal : ExportOutput -> string + error)
        (p : dgraphParams) (f : FS) (evs : list Event) (s : Proc)
        (Hrun : run url_Parse json_Marshal p (init f) evs = Some s) :
  forall id,
    length (responses id (trace (world s)))
    = if waiting id s then 0 else if id <? nextReq s then 1 else 0.
Proof.
  assert (Hinit : answered (init f)).
  { unfold answered, waiting. cbn. split; [constructor|reflexivity]. }
  exact (proj2 (run_answered url_Parse json_Marshal p evs (init f) s Hinit
                             Hrun)).
Qed.

Lemma every_request_answered_once_witness :
  match run url_ok marshal0 params0 (init (fs scenario5))
            [Request "POST"; Request "GET"; Request "POST";
             Returns (OnDemand 0) (refused, None)]
  with
  | Some s =>
      forallb (fun id =>
                 Nat.eqb (length (responses id (trace (world s))))
                         (if waiting id s then 0
                          else if id <? nextReq s then 1 else 0))
              [0; 1; 2; 3] = true
  | None => False
  end.
Proof.
  destruct (run url_ok marshal0 params0 (init (fs scenario5))
                [Request "POST"; Request "GET"; Request "POST";
                 Returns (OnDemand 0) (refused, None)])
    as [s|] eqn:Hrun.
  - refine ((fun H => _)
              (every_request_answered_once url_ok marshal0 params0
                 (fs scenario5) _ s Hrun)).
    cbn [forallb]. rewrite !H, !Nat.eqb_refl. reflexivity.
  - vm_compute in Hrun. discriminate Hrun.
Defined.

End ProcessMore.
